(** * The resilient connection and retry layer of the assistant backend

    A shallow embedding of
      - [src/utils/retry.py]     the backoff-retry decorator,
      - [src/memory/database.py] the PostgreSQL manager, its transaction
                                 context and its module-level singleton,
      - [src/memory/cache.py]    the Redis manager and its singleton,
    followed by the properties the specification states about them.

    Conventions of the embedding.
      - A Python call either returns a value or raises: [outcome].
      - Code that talks to the outside (the wrapped function, asyncpg,
        redis) is a state transformer on an explicit world.
      - Python [int] is [Z].  Delays are Python floats; they are modelled
        by exact rationals [Q], so rounding and overflow of binary64
        arithmetic are outside the model.
      - [random.random()] is a stream [rnd : nat -> Q] of draws, the k-th
        call of a wrapper invocation reading [rnd k].
      - [await] is sequential composition: scheduling and cancellation are
        outside the model. *)

From Stdlib Require Import ZArith QArith Qminmax Qpower List String Bool Lia Lqa.
Import ListNotations.

Set Implicit Arguments.
Local Open Scope Z_scope.

(** ** Outcomes of Python calls *)

Inductive outcome (A E : Type) : Type :=
| Returned (a : A)
| Raised (e : E).

Arguments Returned {A E} a.
Arguments Raised {A E} e.

(** [range(n)] over Python integers: empty when [n <= 0]. *)
Definition range (n : Z) : list Z := map Z.of_nat (seq 0 (Z.to_nat n)).

(** * src/utils/retry.py *)

Module Retry.

(** The keyword arguments of [retry_with_backoff].  [exceptions] is the
    [isinstance] test against the tuple of exception classes. *)
Record BackoffPolicy (E : Type) : Type := {
  max_retries : Z;
  initial_delay : Q;
  max_delay : Q;
  exponential_base : Q;
  jitter : bool;
  exceptions : E -> bool
}.

(** What a wrapper can raise. *)
Inductive raised (E : Type) : Type :=
| Propagated (e : E)
    (* an exception of [func] that [except exceptions] does not match *)
| RetryErrorFrom (retries : Z) (cause : E)
    (* [raise RetryError(f"Failed after {max_retries} retries: ...") from e] *)
| SleepValueError (delay : Q) (context : E)
    (* [time.sleep(delay)] with a negative [delay], raised in the handler *)
| ReraisedLast (e : E)
    (* after the loop: [raise last_exception] *)
| RetryErrorUnexpected.
    (* after the loop: [raise RetryError("Retry logic failed unexpectedly")] *)

Arguments Propagated {E} e.
Arguments RetryErrorFrom {E} retries cause.
Arguments SleepValueError {E} delay context.
Arguments ReraisedLast {E} e.
Arguments RetryErrorUnexpected {E}.

(** What a wrapper does that an observer can see. *)
Inductive event : Type :=
| Invoked                                   (* [func(...)], one call of the wrapped function *)
| LogError (attempts : Z)                   (* [logger.error], [attempt + 1] *)
| LogWarning (attempt : Z) (delay : Q)      (* [logger.warning] *)
| AsyncioSleep (delay : Q)                  (* [await asyncio.sleep(delay)] *)
| TimeSleep (delay : Q).                    (* [time.sleep(delay)] *)

Record run (W A E : Type) : Type := {
  result : outcome A (raised E);
  trace : list event;
  world : W
}.

(** Number of invocations of the wrapped function in a trace. *)
Fixpoint attempts (t : list event) : nat :=
  match t with
  | [] => 0
  | Invoked :: t' => S (attempts t')
  | _ :: t' => attempts t'
  end.

(** The delays slept, in order. *)
Fixpoint delays (t : list event) : list Q :=
  match t with
  | [] => []
  | AsyncioSleep d :: t' => d :: delays t'
  | TimeSleep d :: t' => d :: delays t'
  | _ :: t' => delays t'
  end.

Section Wrappers.

Context {W A E : Type}.

(** The wrapped function, its arguments fixed, acting on the world. *)
Variable func : W -> outcome A E * W.
Variable p : BackoffPolicy E.
Variable rnd : nat -> Q.

Definition finish (r : outcome A (raised E)) (t : list event) (w : W) : run W A E :=
  {| result := r; trace := t; world := w |}.

Definition after (t : list event) (r : run W A E) : run W A E :=
  {| result := result r; trace := t ++ trace r; world := world r |}.

(** [min(initial_delay * (exponential_base**attempt), max_delay)] *)
Definition backoff (attempt : Z) : Q :=
  Qmin (initial_delay p * exponential_base p ^ attempt)%Q (max_delay p).

(** [if jitter: delay = delay * (0.5 + random.random())], with the number
    of draws made so far. *)
Definition add_jitter (delay : Q) (drawn : nat) : Q * nat :=
  if jitter p then ((delay * ((1 # 2) + rnd drawn))%Q, S drawn) else (delay, drawn).

(** The code after the [for] loop. *)
Definition fall_through (last_exception : option E) (w : W) : run W A E :=
  match last_exception with
  | Some e => finish (Raised (ReraisedLast e)) [] w
  | None => finish (Raised RetryErrorUnexpected) [] w
  end.

(** The [for attempt in range(max_retries + 1)] loop of [async_wrapper],
    over the attempt indices still to come. *)
Fixpoint async_loop (todo : list Z) (last_exception : option E)
    (drawn : nat) (w : W) : run W A E :=
  match todo with
  | [] => fall_through last_exception w
  | attempt :: rest =>
    match func w with
    | (Returned a, w') => finish (Returned a) [Invoked] w'
    | (Raised e, w') =>
      if exceptions p e then
        if attempt >=? max_retries p then
          finish (Raised (RetryErrorFrom (max_retries p) e))
                 [Invoked; LogError (attempt + 1)] w'
        else
          let '(delay, drawn') := add_jitter (backoff attempt) drawn in
          after [Invoked; LogWarning (attempt + 1) delay; AsyncioSleep delay]
                (async_loop rest (Some e) drawn' w')
      else finish (Raised (Propagated e)) [Invoked] w'
    end
  end.

Definition async_wrapper (w : W) : run W A E :=
  async_loop (range (max_retries p + 1)) None 0%nat w.

(** The same loop in [sync_wrapper]; [time.sleep] refuses a negative
    argument with a [ValueError], which leaves the handler and the loop. *)
Fixpoint sync_loop (todo : list Z) (last_exception : option E)
    (drawn : nat) (w : W) : run W A E :=
  match todo with
  | [] => fall_through last_exception w
  | attempt :: rest =>
    match func w with
    | (Returned a, w') => finish (Returned a) [Invoked] w'
    | (Raised e, w') =>
      if exceptions p e then
        if attempt >=? max_retries p then
          finish (Raised (RetryErrorFrom (max_retries p) e))
                 [Invoked; LogError (attempt + 1)] w'
        else
          let '(delay, drawn') := add_jitter (backoff attempt) drawn in
          if Qle_bool 0 delay then
            after [Invoked; LogWarning (attempt + 1) delay; TimeSleep delay]
                  (sync_loop rest (Some e) drawn' w')
          else
            finish (Raised (SleepValueError delay e))
                   [Invoked; LogWarning (attempt + 1) delay] w'
      else finish (Raised (Propagated e)) [Invoked] w'
    end
  end.

Definition sync_wrapper (w : W) : run W A E :=
  sync_loop (range (max_retries p + 1)) None 0%nat w.

(** [decorator]: the wrapper is chosen by [asyncio.iscoroutinefunction]. *)
Definition decorator (iscoroutinefunction : bool) : W -> run W A E :=
  if iscoroutinefunction then async_wrapper else sync_wrapper.

(** The world before the [k]-th invocation (0-based) of [func], and what
    that invocation does, when [func] is called again and again. *)
Fixpoint world_before (k : nat) (w : W) : W :=
  match k with
  | O => w
  | S k' => world_before k' (snd (func w))
  end.

Definition invocation (k : nat) (w : W) : outcome A E :=
  fst (func (world_before k w)).

(** [func] raises an exception matched by [exceptions]. *)
Definition fails_retryably (o : outcome A E) : Prop :=
  exists e, o = Raised e /\ exceptions p e = true.

(** No delay the policy can produce is negative. *)
Definition delays_nonneg : Prop :=
  (0 <= initial_delay p)%Q /\ (0 <= exponential_base p)%Q /\
  (0 <= max_delay p)%Q /\
  (jitter p = true -> forall k, (0 <= rnd k)%Q).

(** The delay slept after failing attempt [attempt] when [drawn] draws
    were made before it. *)
Definition slept (attempt : Z) (drawn : nat) : Q :=
  fst (add_jitter (backoff attempt) drawn).

(** The two exits after the loop. *)
Definition fell_through (r : outcome A (raised E)) : bool :=
  match r with
  | Raised (ReraisedLast _) | Raised RetryErrorUnexpected => true
  | _ => false
  end.

(** A wrapper started in [w] left from inside its loop: with a value
    that [func] returned, with a failure of [func] that is not caught,
    with [RetryErrorFrom] around a failure of [func] that is, or, in
    [sync_wrapper], because [time.sleep] refused a negative delay. *)
Definition left_in_loop (w : W) (r : outcome A (raised E)) : Prop :=
  match r with
  | Returned a => exists k, invocation k w = Returned a
  | Raised (Propagated e) =>
      exists k, invocation k w = Raised e /\ exceptions p e = false
  | Raised (RetryErrorFrom n e) =>
      n = max_retries p /\
      exists k, invocation k w = Raised e /\ exceptions p e = true
  | Raised (SleepValueError d _) => (d < 0)%Q
  | Raised (ReraisedLast _) | Raised RetryErrorUnexpected => False
  end.

(** Two runs an observer of results, attempts, delays and the world
    cannot tell apart. *)
Definition same_behaviour (r1 r2 : run W A E) : Prop :=
  result r1 = result r2 /\
  attempts (trace r1) = attempts (trace r2) /\
  delays (trace r1) = delays (trace r2) /\
  world r1 = world r2.

(** The invariants of a [BackoffPolicy] in the data model of the
    specification, and the contract of [random.random()]. *)
Definition well_formed : Prop :=
  0 <= max_retries p /\
  (0 < initial_delay p)%Q /\
  (initial_delay p <= max_delay p)%Q /\
  (1 < exponential_base p)%Q.

Definition unit_draws : Prop := forall k, (0 <= rnd k)%Q /\ (rnd k < 1)%Q.

End Wrappers.

(** The defaults of [retry_with_backoff]. *)
Definition retry_with_backoff {E : Type} (exceptions : E -> bool) : BackoffPolicy E :=
  {| max_retries := 3; initial_delay := 1; max_delay := 60;
     exponential_base := 2; jitter := true; exceptions := exceptions |}.

(** The statement that under a jittering policy every delay slept is its
    unjittered value times a factor in [[lo, hi)]. *)
Definition jitter_factor_within (lo hi : Q) : Prop :=
  forall (W A E : Type) (func : W -> outcome A E * W) (p : BackoffPolicy E)
         (rnd : nat -> Q) (iscoroutinefunction : bool) (w : W) (k : nat) (d : Q),
    well_formed p -> unit_draws rnd -> jitter p = true ->
    nth_error (delays (trace (decorator func p rnd iscoroutinefunction w))) k
      = Some d ->
    exists f, (d == backoff p (Z.of_nat k) * f)%Q /\ (lo <= f)%Q /\ (f < hi)%Q.

End Retry.

(** * The world of the two managers *)

(** ** Exceptions

    The exception classes the sources name, with one representative
    subclass where [isinstance] has to see through inheritance, one class
    for every other subclass of [Exception] (an authentication failure, a
    redis [ResponseError], ...), and [CancelledError], which derives from
    [BaseException] only. *)
Inductive exn : Type :=
| ConnectionError
| ConnectionRefusedError          (* a subclass of [ConnectionError] *)
| TimeoutError
| PostgresConnectionError
| RedisConnectionError
| HttpxConnectError
| HttpxTimeoutException
| RuntimeError (msg : string)
| ValueError
| JSONDecodeError                 (* a subclass of [ValueError] *)
| TypeError
| OtherException (name : string)
| CancelledError
| RetryError (retries : Z) (cause : exn)   (* [class RetryError(Exception)], raised [from cause] *)
| RetryErrorNoCause.

(** [isinstance(e, Exception)] *)
Definition is_Exception (e : exn) : bool :=
  match e with
  | CancelledError => false
  | _ => true
  end.

(** [isinstance(e, json.JSONDecodeError)] *)
Definition is_JSONDecodeError (e : exn) : bool :=
  match e with
  | JSONDecodeError => true
  | _ => false
  end.

(** [isinstance(e, (TypeError, ValueError))] *)
Definition is_TypeError_or_ValueError (e : exn) : bool :=
  match e with
  | TypeError | ValueError | JSONDecodeError => true
  | _ => false
  end.

(** The exception a wrapper of [retry.py] raises, as a Python exception. *)
Definition exn_of_raised (r : Retry.raised exn) : exn :=
  match r with
  | Retry.Propagated e => e
  | Retry.RetryErrorFrom n cause => RetryError n cause
  | Retry.SleepValueError _ _ => ValueError
  | Retry.ReraisedLast e => e
  | Retry.RetryErrorUnexpected => RetryErrorNoCause
  end.

(** ** Calls into asyncpg and redis

    Handles of the libraries' objects are opaque numbers chosen by the
    environment. *)
Definition Pool := nat.
Definition Connection := nat.
Definition Redis := nat.

Inductive cmd : Type :=
| CreatePool                                         (* [asyncpg.create_pool(...)] *)
| PoolAcquire (pool : Pool)                          (* [pool.acquire()] *)
| PoolRelease (pool : Pool) (conn : Connection)      (* [pool.release(conn)] *)
| PoolClose (pool : Pool)                            (* [pool.close()] *)
| ConnFetchval (conn : Connection) (query : string)  (* [conn.fetchval(query)] *)
| ConnExecute (conn : Connection) (query : string)   (* [conn.execute(query)] *)
| TransStart (conn : Connection)                     (* [trans.start()] *)
| TransCommit (conn : Connection)                    (* [trans.commit()] *)
| TransRollback (conn : Connection)                  (* [trans.rollback()] *)
| RedisFromUrl                                       (* [redis.from_url(...)] *)
| RedisPing (client : Redis)
| RedisInfo (client : Redis)
| RedisClose (client : Redis)
| RedisGet (client : Redis) (key : string)
| RedisSetex (client : Redis) (key : string) (ttl : Z) (value : string)
| RedisSet (client : Redis) (key : string) (value : string)
| RedisDelete (client : Redis) (key : string)
| RedisExists (client : Redis) (key : string)
| RedisIncrby (client : Redis) (key : string) (amount : Z)
| RedisExpire (client : Redis) (key : string) (ttl : Z)
| RedisKeys (client : Redis) (pattern : string)
| RedisFlushdb (client : Redis).

(** The type of what each call returns. *)
Definition reply (c : cmd) : Type :=
  match c with
  | CreatePool => Pool
  | PoolAcquire _ => Connection
  | ConnFetchval _ _ | ConnExecute _ _ => string
  | RedisFromUrl => Redis
  | RedisInfo _ => option string       (* the [redis_version] entry, if any *)
  | RedisGet _ _ => option string
  | RedisDelete _ _ | RedisExists _ _ | RedisIncrby _ _ _ => Z
  | RedisPing _ | RedisSetex _ _ _ _ | RedisSet _ _ _ | RedisExpire _ _ _
  | RedisFlushdb _ => bool
  | RedisKeys _ _ => list string
  | PoolRelease _ _ | PoolClose _ | TransStart _ | TransCommit _
  | TransRollback _ | RedisClose _ => unit
  end.

(** The environment decides every call, and may decide differently each
    time: its first argument counts the calls made so far. *)
Definition environment : Type := nat -> forall c : cmd, outcome (reply c) exn.

Inductive level : Type := Info | Warning | Error.

Inductive entry : Type :=
| Call (c : cmd) (ok : bool)        (* a call and whether it returned *)
| Log (lvl : level) (msg : string). (* a record handed to the logger *)

(** ** Objects and module globals *)

Record DatabaseObj : Type := { pool : option Pool }.
Record CacheObj : Type := { client : option Redis }.

Definition ref := nat.

Record World : Type := {
  env : environment;
  tick : nat;                      (* calls made so far *)
  history : list entry;
  databases : ref -> DatabaseObj;  (* the [Database] instances *)
  databases_next : ref;
  caches : ref -> CacheObj;        (* the [Cache] instances *)
  caches_next : ref;
  _db : option ref;                (* [database._db] *)
  _cache : option ref              (* [cache._cache] *)
}.

(** ** Sequencing, raising and handling *)

Definition M (A : Type) : Type := World -> outcome A exn * World.

Definition ret {A} (a : A) : M A := fun w => (Returned a, w).

Definition raise {A} (e : exn) : M A := fun w => (Raised e, w).

Definition bind {A B} (m : M A) (k : A -> M B) : M B :=
  fun w =>
    match m w with
    | (Returned a, w') => k a w'
    | (Raised e, w') => (Raised e, w')
    end.

Notation "x <- m ;; k" := (bind m (fun x => k))
  (at level 61, m at next level, right associativity).
Notation "m ;;; k" := (bind m (fun _ => k))
  (at level 61, right associativity).

(** [try: body except <classes> as e: handler e] *)
Definition try_except {A} (body : M A) (classes : exn -> bool)
    (handler : exn -> M A) : M A :=
  fun w =>
    match body w with
    | (Returned a, w') => (Returned a, w')
    | (Raised e, w') => if classes e then handler e w' else (Raised e, w')
    end.

(** [try: body finally: final]: an exception of [final] replaces the
    outcome of [body]. *)
Definition try_finally {A} (body : M A) (final : M unit) : M A :=
  fun w =>
    match body w with
    | (r, w') =>
      match final w' with
      | (Returned _, w'') => (r, w'')
      | (Raised e, w'') => (Raised e, w'')
      end
    end.

Definition record (x : entry) (w : World) : World :=
  {| env := env w; tick := tick w; history := history w ++ [x];
     databases := databases w; databases_next := databases_next w;
     caches := caches w; caches_next := caches_next w;
     _db := _db w; _cache := _cache w |}.

Definition advance (w : World) : World :=
  {| env := env w; tick := S (tick w); history := history w;
     databases := databases w; databases_next := databases_next w;
     caches := caches w; caches_next := caches_next w;
     _db := _db w; _cache := _cache w |}.

Definition returned {A E} (o : outcome A E) : bool :=
  match o with
  | Returned _ => true
  | Raised _ => false
  end.

(** One call into a library. *)
Definition call (c : cmd) : M (reply c) :=
  fun w =>
    let o := env w (tick w) c in
    (o, record (Call c (returned o)) (advance w)).

Definition log (lvl : level) (msg : string) : M unit :=
  fun w => (Returned tt, record (Log lvl msg) w).

(** [retry_on_network_error]: the classes of its [exceptions] tuple. *)
Definition network_errors (e : exn) : bool :=
  match e with
  | ConnectionError | ConnectionRefusedError | TimeoutError
  | PostgresConnectionError | RedisConnectionError
  | HttpxConnectError | HttpxTimeoutException => true
  | _ => false
  end.

Definition retry_on_network_error (max_retries : Z) (initial_delay : Q)
    : Retry.BackoffPolicy exn :=
  {| Retry.max_retries := max_retries;
     Retry.initial_delay := initial_delay;
     Retry.max_delay := 60;
     Retry.exponential_base := 2;
     Retry.jitter := true;
     Retry.exceptions := network_errors |}.

(** Awaiting a decorated coroutine: its value, or its exception. *)
Definition await {A} (r : Retry.run World A exn) : outcome A exn * World :=
  match Retry.result r with
  | Returned a => (Returned a, Retry.world r)
  | Raised x => (Raised (exn_of_raised x), Retry.world r)
  end.

(** * src/memory/database.py *)

Module Database.

Definition get_pool (self : ref) : M (option Pool) :=
  fun w => (Returned (pool (databases w self)), w).

Definition set_pool (self : ref) (v : option Pool) : M unit :=
  fun w =>
    (Returned tt,
     {| env := env w; tick := tick w; history := history w;
        databases := fun r => if Nat.eqb r self then {| pool := v |}
                              else databases w r;
        databases_next := databases_next w;
        caches := caches w; caches_next := caches_next w;
        _db := _db w; _cache := _cache w |}).

(** [async with pool.acquire() as conn: body conn] *)
Definition with_acquire {A} (pool : Pool) (body : Connection -> M A) : M A :=
  conn <- call (PoolAcquire pool) ;;
  try_finally (body conn) (call (PoolRelease pool conn)).

(** The body of [Database.connect], under the decorator. *)
Definition connect_body (self : ref) : M unit :=
  p <- get_pool self ;;
  match p with
  | Some _ => log Warning "Database pool already exists"
  | None =>
    log Info "Connecting to PostgreSQL" ;;;
    try_except
      (pool <- call CreatePool ;;
       set_pool self (Some pool) ;;;
       (* Test connection, on the pool just stored in [self.pool] *)
       with_acquire pool (fun conn =>
         version <- call (ConnFetchval conn "SELECT version()") ;;
         log Info ("Connected to PostgreSQL: " ++ version)))
      is_Exception
      (fun e => log Error "Failed to connect to PostgreSQL" ;;; raise e)
  end.

(** [@retry_on_network_error(max_retries=3, initial_delay=1.0)
     async def connect(self)] *)
Definition connect (rnd : nat -> Q) (self : ref) : World -> Retry.run World unit exn :=
  Retry.async_wrapper (connect_body self) (retry_on_network_error 3 1) rnd.

Definition disconnect (self : ref) : M unit :=
  p <- get_pool self ;;
  match p with
  | None => ret tt
  | Some pool =>
    log Info "Disconnecting from PostgreSQL" ;;;
    call (PoolClose pool) ;;;
    set_pool self None
  end.

Definition execute (self : ref) (query : string) : M string :=
  p <- get_pool self ;;
  match p with
  | None => raise (RuntimeError "Database not connected")
  | Some pool => with_acquire pool (fun conn => call (ConnExecute conn query))
  end.

(** The [TransactionContext] that [transaction] returns.  A transaction
    object of asyncpg is bound to its connection, which names it. *)
Record TransactionContext : Type := {
  conn : Connection;
  trans : Connection;
  tpool : Pool
}.

Definition transaction (self : ref) : M TransactionContext :=
  p <- get_pool self ;;
  match p with
  | None => raise (RuntimeError "Database not connected")
  | Some pool =>
    connection <- call (PoolAcquire pool) ;;
    ret {| conn := connection; trans := connection; tpool := pool |}
  end.

Definition aenter (ctx : TransactionContext) : M Connection :=
  call (TransStart (trans ctx)) ;;;
  ret (conn ctx).

(** [__aexit__]; [exc_type] is [None] when the block exited normally. *)
Definition aexit (ctx : TransactionContext) (exc_type : option exn) : M unit :=
  try_finally
    (match exc_type with
     | None => call (TransCommit (trans ctx))
     | Some _ => call (TransRollback (trans ctx))
     end)
    (call (PoolRelease (tpool ctx) (conn ctx))).

(** [async with ctx as c: block c].  [__aexit__] returns [None], so an
    exception of the block is raised again once [__aexit__] has returned. *)
Definition async_with {A} (ctx : TransactionContext) (block : Connection -> M A) : M A :=
  fun w =>
    match aenter ctx w with
    | (Raised e, w1) => (Raised e, w1)
    | (Returned c, w1) =>
      match block c w1 with
      | (Returned a, w2) =>
        match aexit ctx None w2 with
        | (Returned _, w3) => (Returned a, w3)
        | (Raised e, w3) => (Raised e, w3)
        end
      | (Raised e, w2) =>
        match aexit ctx (Some e) w2 with
        | (Returned _, w3) => (Raised e, w3)
        | (Raised e', w3) => (Raised e', w3)
        end
      end
    end.

(** [Database()]: a fresh instance, [self.pool = None]. *)
Definition new : M ref :=
  fun w =>
    let r := databases_next w in
    (Returned r,
     {| env := env w; tick := tick w; history := history w;
        databases := fun x => if Nat.eqb x r then {| pool := None |}
                              else databases w x;
        databases_next := S r;
        caches := caches w; caches_next := caches_next w;
        _db := _db w; _cache := _cache w |}).

Definition set_db (v : option ref) : M unit :=
  fun w =>
    (Returned tt,
     {| env := env w; tick := tick w; history := history w;
        databases := databases w; databases_next := databases_next w;
        caches := caches w; caches_next := caches_next w;
        _db := v; _cache := _cache w |}).

Definition get_database : M ref :=
  fun w =>
    match _db w with
    | Some db => (Returned db, w)
    | None => (db <- new ;; set_db (Some db) ;;; ret db) w
    end.

Definition init_database (rnd : nat -> Q) : M ref :=
  db <- get_database ;;
  (fun w => await (connect rnd db w)) ;;;
  ret db.

Definition close_database : M unit :=
  fun w =>
    match _db w with
    | Some db => (disconnect db ;;; set_db None) w
    | None => (Returned tt, w)
    end.

End Database.

(** * src/memory/cache.py *)

Module Cache.

Definition get_client (self : ref) : M (option Redis) :=
  fun w => (Returned (client (caches w self)), w).

Definition set_client (self : ref) (v : option Redis) : M unit :=
  fun w =>
    (Returned tt,
     {| env := env w; tick := tick w; history := history w;
        databases := databases w; databases_next := databases_next w;
        caches := fun r => if Nat.eqb r self then {| client := v |}
                           else caches w r;
        caches_next := caches_next w;
        _db := _db w; _cache := _cache w |}).

(** [info.get("redis_version", "unknown")] *)
Definition redis_version (info : option string) : string :=
  match info with
  | Some v => v
  | None => "unknown"
  end.

(** The body of [Cache.connect], under the decorator. *)
Definition connect_body (self : ref) : M unit :=
  c <- get_client self ;;
  match c with
  | Some _ => log Warning "Redis client already exists"
  | None =>
    log Info "Connecting to Redis" ;;;
    try_except
      (client <- call RedisFromUrl ;;
       set_client self (Some client) ;;;
       (* Test connection *)
       call (RedisPing client) ;;;
       info <- call (RedisInfo client) ;;
       log Info ("Connected to Redis: version " ++ redis_version info))
      is_Exception
      (fun e => log Error "Failed to connect to Redis" ;;; raise e)
  end.

(** [@retry_on_network_error(max_retries=3, initial_delay=1.0)
     async def connect(self)] *)
Definition connect (rnd : nat -> Q) (self : ref) : World -> Retry.run World unit exn :=
  Retry.async_wrapper (connect_body self) (retry_on_network_error 3 1) rnd.

Definition disconnect (self : ref) : M unit :=
  c <- get_client self ;;
  match c with
  | None => ret tt
  | Some client =>
    log Info "Disconnecting from Redis" ;;;
    call (RedisClose client) ;;;
    set_client self None
  end.

(** Every operation starts with
    [if self.client is None: raise RuntimeError("Cache not connected")]. *)
Definition connected {A} (self : ref) (k : Redis -> M A) : M A :=
  c <- get_client self ;;
  match c with
  | None => raise (RuntimeError "Cache not connected")
  | Some client => k client
  end.

Definition get (self : ref) (key : string) : M (option string) :=
  connected self (fun client =>
    try_except (call (RedisGet client key)) is_Exception
      (fun e => log Error "Cache GET failed" ;;; ret None)).

(** [if ttl:] fails for [None] and for [0]. *)
Definition set (self : ref) (key value : string) (ttl : option Z) : M bool :=
  connected self (fun client =>
    try_except
      (match ttl with
       | Some t =>
         if t =? 0 then call (RedisSet client key value)
         else call (RedisSetex client key t value)
       | None => call (RedisSet client key value)
       end ;;;
       ret true)
      is_Exception
      (fun e => log Error "Cache SET failed" ;;; ret false)).

Definition delete (self : ref) (key : string) : M bool :=
  connected self (fun client =>
    try_except
      (result <- call (RedisDelete client key) ;; ret (result >? 0))
      is_Exception
      (fun e => log Error "Cache DELETE failed" ;;; ret false)).

Definition exists_ (self : ref) (key : string) : M bool :=
  connected self (fun client =>
    try_except
      (n <- call (RedisExists client key) ;; ret (n >? 0))
      is_Exception
      (fun e => log Error "Cache EXISTS failed" ;;; ret false)).

Definition increment (self : ref) (key : string) (amount : Z) : M Z :=
  connected self (fun client =>
    try_except (call (RedisIncrby client key amount)) is_Exception
      (fun e => log Error "Cache INCREMENT failed" ;;; ret 0)).

Definition expire (self : ref) (key : string) (ttl : Z) : M bool :=
  connected self (fun client =>
    try_except (call (RedisExpire client key ttl)) is_Exception
      (fun e => log Error "Cache EXPIRE failed" ;;; ret false)).

Definition keys (self : ref) (pattern : string) : M (list string) :=
  connected self (fun client =>
    try_except (call (RedisKeys client pattern)) is_Exception
      (fun e => log Error "Cache KEYS failed" ;;; ret [])).

Definition flush (self : ref) : M bool :=
  connected self (fun client =>
    log Warning "Flushing Redis cache" ;;;
    try_except (call (RedisFlushdb client) ;;; ret true) is_Exception
      (fun e => log Error "Cache FLUSH failed" ;;; ret false)).

Section Json.

(** The values [json] converts, and its two functions: pure, and raising
    what the library raises. *)
Variable Json : Type.
Variable json_loads : string -> outcome Json exn.
Variable json_dumps : Json -> outcome string exn.

Definition pure {A} (o : outcome A exn) : M A := fun w => (o, w).

Definition get_json (self : ref) (key : string) : M (option Json) :=
  value <- get self key ;;
  match value with
  | None => ret None
  | Some s =>
    try_except (j <- pure (json_loads s) ;; ret (Some j)) is_JSONDecodeError
      (fun e => log Error "Failed to parse JSON" ;;; ret None)
  end.

Definition set_json (self : ref) (key : string) (value : Json) (ttl : option Z) : M bool :=
  try_except
    (json_value <- pure (json_dumps value) ;; set self key json_value ttl)
    is_TypeError_or_ValueError
    (fun e => log Error "Failed to serialize JSON" ;;; ret false).

End Json.

(** [Cache()]: a fresh instance, [self.client = None]. *)
Definition new : M ref :=
  fun w =>
    let r := caches_next w in
    (Returned r,
     {| env := env w; tick := tick w; history := history w;
        databases := databases w; databases_next := databases_next w;
        caches := fun x => if Nat.eqb x r then {| client := None |}
                           else caches w x;
        caches_next := S r;
        _db := _db w; _cache := _cache w |}).

Definition set_cache (v : option ref) : M unit :=
  fun w =>
    (Returned tt,
     {| env := env w; tick := tick w; history := history w;
        databases := databases w; databases_next := databases_next w;
        caches := caches w; caches_next := caches_next w;
        _db := _db w; _cache := v |}).

Definition get_cache : M ref :=
  fun w =>
    match _cache w with
    | Some cache => (Returned cache, w)
    | None => (cache <- new ;; set_cache (Some cache) ;;; ret cache) w
    end.

Definition init_cache (rnd : nat -> Q) : M ref :=
  cache <- get_cache ;;
  (fun w => await (connect rnd cache w)) ;;;
  ret cache.

Definition close_cache : M unit :=
  fun w =>
    match _cache w with
    | Some cache => (disconnect cache ;;; set_cache None) w
    | None => (Returned tt, w)
    end.

End Cache.

(** * Worlds and environments to run the code on *)

(** What a call returns when nothing goes wrong. *)
Definition plain_reply (c : cmd) : reply c :=
  match c as c' return reply c' with
  | CreatePool => 1%nat
  | PoolAcquire _ => 7%nat
  | ConnFetchval _ _ => "PostgreSQL 16"%string
  | ConnExecute _ _ => "INSERT 0 1"%string
  | RedisFromUrl => 2%nat
  | RedisInfo _ => Some "7.2"%string
  | RedisGet _ _ => Some "v"%string
  | RedisDelete _ _ | RedisExists _ _ => 1
  | RedisIncrby _ _ amount => amount
  | RedisPing _ | RedisSetex _ _ _ _ | RedisSet _ _ _ | RedisExpire _ _ _
  | RedisFlushdb _ => true
  | RedisKeys _ _ => []
  | PoolRelease _ _ | PoolClose _ | TransStart _ | TransCommit _
  | TransRollback _ | RedisClose _ => tt
  end.

(** Both servers up. *)
Definition healthy : environment := fun _ c => Returned (plain_reply c).

(** Every call fails with [e]. *)
Definition down (e : exn) : environment := fun _ _ => Raised e.

(** The first [n] calls fail with [e], the later ones follow [rest]. *)
Definition failing_first (n : nat) (e : exn) (rest : environment) : environment :=
  fun t c => if Nat.ltb t n then Raised e else rest t c.

(** PostgreSQL accepts connections but no query: [create_pool] returns,
    the probe's [acquire] raises [e]. *)
Definition probe_fails (e : exn) : environment :=
  fun _ c =>
    match c as c' return outcome (reply c') exn with
    | PoolAcquire _ => Raised e
    | c' => Returned (plain_reply c')
    end.

(** Redis is down: the lazy [from_url] returns a client, every command
    on it raises [e]. *)
Definition redis_down (e : exn) : environment :=
  fun _ c =>
    match c as c' return outcome (reply c') exn with
    | RedisFromUrl => Returned (plain_reply RedisFromUrl)
    | _ => Raised e
    end.

(** A process that has imported both modules and done nothing else. *)
Definition start (e : environment) : World :=
  {| env := e; tick := 0%nat; history := [];
     databases := fun _ => {| pool := None |}; databases_next := 0%nat;
     caches := fun _ => {| client := None |}; caches_next := 0%nat;
     _db := None; _cache := None |}.

(** The draws of [random.random()] all equal to [r]. *)
Definition constant_draws (r : Q) : nat -> Q := fun _ => r.

(** An operation that ignores the world: its [k]-th invocation raises the
    [k]-th entry of [failures], and returns [v] once they are used up. *)
Definition scripted {A E} (failures : list E) (v : A) : nat -> outcome A E * nat :=
  fun k =>
    (match nth_error failures k with
     | Some e => Raised e
     | None => Returned v
     end, S k).

(** ** The operations of the cache, as one family *)

Section CacheOperations.

Variable Json : Type.
Variable json_loads : string -> outcome Json exn.
Variable json_dumps : Json -> outcome string exn.

Inductive operation : Type :=
| Get (key : string)
| Set_ (key value : string) (ttl : option Z)
| Delete (key : string)
| Exists (key : string)
| GetJson (key : string)
| SetJson (key : string) (value : Json) (ttl : option Z)
| Increment (key : string) (amount : Z)
| Expire (key : string) (ttl : Z)
| Keys (pattern : string)
| Flush.

(** What the operations return. *)
Inductive value : Type :=
| OfGet (v : option string)
| OfBool (b : bool)
| OfInt (n : Z)
| OfKeys (l : list string)
| OfJson (j : option Json).

Definition fmap {A B} (f : A -> B) (m : M A) : M B := x <- m ;; ret (f x).

Definition perform (op : operation) (self : ref) : M value :=
  match op with
  | Get key => fmap OfGet (Cache.get self key)
  | Set_ key v ttl => fmap OfBool (Cache.set self key v ttl)
  | Delete key => fmap OfBool (Cache.delete self key)
  | Exists key => fmap OfBool (Cache.exists_ self key)
  | GetJson key => fmap OfJson (Cache.get_json json_loads self key)
  | SetJson key v ttl => fmap OfBool (Cache.set_json json_dumps self key v ttl)
  | Increment key amount => fmap OfInt (Cache.increment self key amount)
  | Expire key ttl => fmap OfBool (Cache.expire self key ttl)
  | Keys pattern => fmap OfKeys (Cache.keys self pattern)
  | Flush => fmap OfBool (Cache.flush self)
  end.

(** [json] fails inside an operation run in [w] on [client]:
    [json.dumps] on the value of [set_json], or [json.loads] on the
    string that redis returns to [get_json]. *)
Definition serialization_fails (op : operation) (client : Redis) (w : World) : Prop :=
  match op with
  | SetJson _ value _ => exists e, json_dumps value = Raised e
  | GetJson key =>
      exists s e,
        env w (tick w) (RedisGet client key) = Returned (Some s) /\
        json_loads s = Raised e
  | _ => False
  end.

(** [None] for the gets, [False] for the booleans, [0] for [increment],
    the empty list for [keys]. *)
Definition safe_default (op : operation) : value :=
  match op with
  | Get _ => OfGet None
  | GetJson _ => OfJson None
  | Increment _ _ => OfInt 0
  | Keys _ => OfKeys []
  | Set_ _ _ _ | Delete _ | Exists _ | SetJson _ _ _ | Expire _ _ | Flush =>
      OfBool false
  end.

End CacheOperations.

(** A call in this stretch of history raised. *)
Definition some_call_failed (h : list entry) : bool :=
  existsb (fun x => match x with Call _ false => true | _ => false end) h.

(** The logger was handed an error in this stretch of history. *)
Definition error_logged (h : list entry) : bool :=
  existsb (fun x => match x with Log Error _ => true | _ => false end) h.

(** The pools (for redis: the clients) constructed in this stretch of
    history: the calls of [create_pool] (of [from_url]) that returned. *)
Fixpoint pools_created (h : list entry) : nat :=
  match h with
  | [] => 0
  | Call CreatePool true :: h' => S (pools_created h')
  | _ :: h' => pools_created h'
  end.

Fixpoint clients_created (h : list entry) : nat :=
  match h with
  | [] => 0
  | Call RedisFromUrl true :: h' => S (clients_created h')
  | _ :: h' => clients_created h'
  end.

(** PostgreSQL is up, but ending a transaction fails with [e]. *)
Definition ending_fails (e : exn) : environment :=
  fun _ c =>
    match c as c' return outcome (reply c') exn with
    | TransCommit _ => Raised e
    | TransRollback _ => Raised e
    | c' => Returned (plain_reply c')
    end.

(** A process whose [Database] instance [0] holds pool [1] and whose
    [Cache] instance [0] holds client [2]. *)
Definition connected_world (e : environment) : World :=
  snd (Cache.set_client 0%nat (Some 2%nat)
         (snd (Database.set_pool 0%nat (Some 1%nat) (start e)))).

(** A stand-in for [json]: the documents are the strings, and the empty
    string is neither a document nor serializable. *)
Definition toy_loads (s : string) : outcome string exn :=
  if String.eqb s "" then Raised JSONDecodeError else Returned s.

Definition toy_dumps (j : string) : outcome string exn :=
  if String.eqb j "" then Raised TypeError else Returned j.

(** ** The two managers, side by side *)

Inductive manager : Type := Relational | KeyValue.

Definition connect_body_of (m : manager) : ref -> M unit :=
  match m with
  | Relational => Database.connect_body
  | KeyValue => Cache.connect_body
  end.

Definition connect_of (m : manager)
    : (nat -> Q) -> ref -> World -> Retry.run World unit exn :=
  match m with
  | Relational => Database.connect
  | KeyValue => Cache.connect
  end.

Definition init_of (m : manager) : (nat -> Q) -> M ref :=
  match m with
  | Relational => Database.init_database
  | KeyValue => Cache.init_cache
  end.

Definition get_of (m : manager) : M ref :=
  match m with
  | Relational => Database.get_database
  | KeyValue => Cache.get_cache
  end.

(** [self.pool], respectively [self.client]: the manager counts as
    connected when it is not [None]. *)
Definition handle (m : manager) (w : World) (self : ref) : option nat :=
  match m with
  | Relational => pool (databases w self)
  | KeyValue => client (caches w self)
  end.

(** The registry slot: [_db], respectively [_cache]. *)
Definition slot (m : manager) (w : World) : option ref :=
  match m with
  | Relational => _db w
  | KeyValue => _cache w
  end.

Definition next_ref (m : manager) (w : World) : ref :=
  match m with
  | Relational => databases_next w
  | KeyValue => caches_next w
  end.

Definition constructed (m : manager) (h : list entry) : nat :=
  match m with
  | Relational => pools_created h
  | KeyValue => clients_created h
  end.

Definition already_exists (m : manager) : string :=
  match m with
  | Relational => "Database pool already exists"
  | KeyValue => "Redis client already exists"
  end.

(** The statement that a failed [init_database] or [init_cache] leaves
    its registry slot empty. *)
Definition registry_stores_only_on_success : Prop :=
  forall m rnd w e w',
    slot m w = None -> init_of m rnd w = (Raised e, w') -> slot m w' = None.

(** ** More of the two managers, side by side *)

Definition disconnect_of (m : manager) : ref -> M unit :=
  match m with
  | Relational => Database.disconnect
  | KeyValue => Cache.disconnect
  end.

(** [close_database], respectively [close_cache]. *)
Definition close_of (m : manager) : M unit :=
  match m with
  | Relational => Database.close_database
  | KeyValue => Cache.close_cache
  end.

(** [pool.close()], respectively [client.close()]. *)
Definition close_call (m : manager) (h : nat) : cmd :=
  match m with
  | Relational => PoolClose h
  | KeyValue => RedisClose h
  end.

Definition disconnecting (m : manager) : string :=
  match m with
  | Relational => "Disconnecting from PostgreSQL"
  | KeyValue => "Disconnecting from Redis"
  end.

(** The command [Cache.set] sends for a [ttl]. *)
Definition store_call (client : Redis) (key value : string) (ttl : option Z) : cmd :=
  match ttl with
  | Some t => if t =? 0 then RedisSet client key value
              else RedisSetex client key t value
  | None => RedisSet client key value
  end.

(** The part of the world an operation of a manager has no business
    with: the environment, the instances and the registry slots. *)
Definition same_state (w w' : World) : Prop :=
  env w' = env w /\ databases w' = databases w /\ caches w' = caches w /\
  databases_next w' = databases_next w /\ caches_next w' = caches_next w /\
  _db w' = _db w /\ _cache w' = _cache w.

(** * scripts/test_connectivity.py *)

Module Connectivity.

(** ["=" * 60] *)
Definition rule : string :=
  "============================================================".

Definition test_key : string := "test:connectivity".
Definition test_value : string := "Hello, Redis!".

(** [retrieved == test_value], for a [retrieved] that may be [None]. *)
Definition is_value (retrieved : option string) (expected : string) : bool :=
  match retrieved with
  | Some s => String.eqb s expected
  | None => false
  end.

(** [if b: m] *)
Definition when (b : bool) (m : M unit) : M unit := if b then m else ret tt.

Section TestRedis.

Variable Json : Type.
Variable json_loads : string -> outcome Json exn.
Variable json_dumps : Json -> outcome string exn.

(** [==] between what [get_json] returned and [test_json]. *)
Variable json_eq : option Json -> Json -> bool.
Variable test_json : Json.

(** [test_redis]; the check marks of its messages are left out. *)
Definition test_redis (rnd : nat -> Q) : M bool :=
  log Info (String (Ascii.ascii_of_nat 10) rule) ;;;
  log Info "Testing Redis Connection" ;;;
  log Info rule ;;;
  try_finally
    (try_except
       (cache <- Cache.init_cache rnd ;;
        log Info "Connected to Redis" ;;;
        Cache.set cache test_key test_value (Some 60) ;;;
        log Info "SET operation successful" ;;;
        retrieved <- Cache.get cache test_key ;;
        (if is_value retrieved test_value
         then log Info "GET operation successful"
         else log Warning "GET mismatch") ;;;
        exists_ <- Cache.exists_ cache test_key ;;
        when exists_ (log Info "EXISTS operation successful") ;;;
        Cache.set_json json_dumps cache "test:json" test_json (Some 60) ;;;
        retrieved_json <- Cache.get_json json_loads cache "test:json" ;;
        when (json_eq retrieved_json test_json)
             (log Info "JSON operations successful") ;;;
        Cache.set cache "test:counter" "0" None ;;;
        count <- Cache.increment cache "test:counter" 5 ;;
        when (count =? 5) (log Info "INCREMENT operation successful") ;;;
        Cache.delete cache test_key ;;;
        Cache.delete cache "test:json" ;;;
        Cache.delete cache "test:counter" ;;;
        log Info "DELETE operation successful" ;;;
        log Info "Redis is working correctly!" ;;;
        ret true)
       is_Exception
       (fun e => log Error "Redis test failed" ;;; ret false))
    Cache.close_cache.

(** The world in which [test_redis] calls [init_cache]. *)
Definition banner (w : World) : World :=
  snd ((log Info (String (Ascii.ascii_of_nat 10) rule) ;;;
        log Info "Testing Redis Connection" ;;;
        log Info rule) w).

End TestRedis.

End Connectivity.

(** ** Reasoning about code that cannot fail *)

(** Every exception the environment raises is an instance of
    [Exception]. *)
Definition raises_Exceptions (e0 : environment) : Prop :=
  forall t c e, e0 t c = Raised e -> is_Exception e = true.

(** In the environment [e0], the cache instance [self] is in the
    registry and holds a client. *)
Definition cache_ready (e0 : environment) (self : ref) (w : World) : Prop :=
  (exists c, client (caches w self) = Some c) /\
  _cache w = Some self /\
  env w = e0.

(** Run in a world satisfying [P], [m] returns, in a world satisfying
    [P]. *)
Definition returns_in {A : Type} (P : World -> Prop) (m : M A) : Prop :=
  forall w, P w -> exists v w', m w = (Returned v, w') /\ P w'.

(** The same, for code that returns [True]. *)
Definition returns_true (P : World -> Prop) (m : M bool) : Prop :=
  forall w, P w -> exists w', m w = (Returned true, w') /\ P w'.

(** Redis cannot be reached: the lazy [from_url] returns a client and
    closing it returns, every command sent to the server raises [e]. *)
Definition redis_unreachable (e : exn) : environment :=
  fun _ c =>
    match c as c' return outcome (reply c') exn with
    | RedisFromUrl => Returned (plain_reply RedisFromUrl)
    | RedisClose _ => Returned tt
    | _ => Raised e
    end.

(** [==] of the stand-in for [json]. *)
Definition toy_eq (o : option string) (j : string) : bool :=
  match o with
  | Some s => String.eqb s j
  | None => false
  end.

(** * src/utils/helpers.py *)

Module Helpers.

Section Text.

(** A [str] is the list of its code points. *)
Variable char : Type.

(** [t[:n]]: a negative [n] counts from the end. *)
Definition upto (n : Z) (t : list char) : list char :=
  if n <? 0 then firstn (Z.to_nat (Z.of_nat (List.length t) + n)) t
  else firstn (Z.to_nat n) t.

Definition truncate_text (text : list char) (max_length : Z)
    (suffix : list char) : list char :=
  if Z.of_nat (List.length text) <=? max_length then text
  else upto (max_length - Z.of_nat (List.length suffix)) text ++ suffix.

(** [str.isdigit] on one code point, the code point of ["+"], and
    equality of code points. *)
Variable isdigit : char -> bool.
Variable plus : char.
Variable char_eqb : char -> char -> bool.

(** [s.startswith("+")] *)
Definition startswith_plus (s : list char) : bool :=
  match s with
  | c :: _ => char_eqb c plus
  | [] => false
  end.

Definition format_phone_number (phone : list char) : list char :=
  let digits := filter isdigit phone in
  if negb (startswith_plus digits) then plus :: digits else digits.

End Text.

(** [range(0, stop, step)] for [stop >= 0]: a zero step is a
    [ValueError], a negative step gives the empty range. *)
Definition range_from_zero (stop step : Z) : outcome (list Z) exn :=
  if step =? 0 then Raised ValueError
  else if step <? 0 then Returned []
  else Returned (map (fun k => Z.of_nat k * step)
                     (seq 0 (Z.to_nat ((stop + step - 1) / step)))).

(** [items[i:j]] for [0 <= i <= j] *)
Definition slice {A : Type} (i j : Z) (items : list A) : list A :=
  firstn (Z.to_nat (j - i)) (skipn (Z.to_nat i) items).

Definition chunk_list {A : Type} (items : list A) (chunk_size : Z)
    : outcome (list (list A)) exn :=
  match range_from_zero (Z.of_nat (List.length items)) chunk_size with
  | Returned starts =>
      Returned (map (fun i => slice i (i + chunk_size) items) starts)
  | Raised e => Raised e
  end.

Section Dicts.

(** A [Dict[str, Any]]: its items in insertion order, the keys
    distinct. *)
Variable V : Type.

Definition dict : Type := list (string * V).

Definition keys (d : dict) : list string := map fst d.

(** [d[k] = v]: an existing key keeps its place. *)
Fixpoint setitem (k : string) (v : V) (d : dict) : dict :=
  match d with
  | [] => [(k, v)]
  | (k', v') :: d' =>
      if String.eqb k' k then (k', v) :: d' else (k', v') :: setitem k v d'
  end.

(** [d.get(k)] *)
Fixpoint getitem (k : string) (d : dict) : option V :=
  match d with
  | [] => None
  | (k', v) :: d' => if String.eqb k' k then Some v else getitem k d'
  end.

(** [d.update(other)] *)
Definition update (d other : dict) : dict :=
  fold_left (fun acc kv => setitem (fst kv) (snd kv) acc) other d.

Definition merge_dicts (dicts : list dict) : dict :=
  fold_left update dicts [].

(** The last value that is not [None]. *)
Fixpoint last_defined (l : list (option V)) : option V :=
  match l with
  | [] => None
  | o :: l' =>
      match last_defined l' with
      | Some v => Some v
      | None => o
      end
  end.

End Dicts.

(** [str.isdigit] on the ASCII code points. *)
Definition ascii_isdigit (c : Ascii.ascii) : bool :=
  (48 <=? Ascii.nat_of_ascii c)%nat && (Ascii.nat_of_ascii c <=? 57)%nat.

End Helpers.

(** * src/utils/logging.py *)

Module Logging.

(** A [logging.LogRecord], as far as [StructuredFormatter] reads and
    writes it: [record.msg], and the [context] dictionary that
    [ContextLogger.process] passes in [extra], its values as [str] shows
    them. *)
Record LogRecord : Type := {
  msg : string;
  context : list (string * string)
}.

(** [" ".join([f"{k}={v}" for k, v in context.items()])] *)
Definition context_str (context : list (string * string)) : string :=
  String.concat " " (map (fun kv => (fst kv ++ "=" ++ snd kv)%string) context).

(** What [format] appends to [record.msg]. *)
Definition suffix (record : LogRecord) : string :=
  (" [" ++ context_str (context record) ++ "]")%string.

Section Formatter.

(** [logging.Formatter.format], laying out the record it is given. *)
Variable super_format : LogRecord -> string.

(** [StructuredFormatter.format]: the text returned, and the record as it
    is left; [if context:] fails for the empty dictionary. *)
Definition format (record : LogRecord) : string * LogRecord :=
  match context record with
  | [] => (super_format record, record)
  | _ :: _ =>
      let record' := {| msg := (msg record ++ suffix record)%string;
                        context := context record |} in
      (super_format record', record')
  end.

(** The record after [n] formatters have formatted it, as the handlers
    of a logger do one after the other. *)
Fixpoint formatted (n : nat) (record : LogRecord) : LogRecord :=
  match n with
  | O => record
  | S n' => snd (format (formatted n' record))
  end.

End Formatter.

(** [s * n] *)
Fixpoint times (s : string) (n : nat) : string :=
  match n with
  | O => ""
  | S n' => (times s n' ++ s)%string
  end.

End Logging.

(** * Tactics for running the code symbolically *)

(** Unfolding the sequencing combinators. *)
Ltac run_code :=
  unfold Database.connect_body, Database.with_acquire, Database.get_pool,
         Database.set_pool, Database.transaction, Database.aenter,
         Database.aexit, Database.async_with,
         Cache.connect_body, Cache.get_client, Cache.set_client,
         Cache.connected, fmap, Cache.pure,
         try_except, try_finally, bind, ret, raise, call, log.

(** Splitting on the handlers' class tests, and tidying the world. *)
Ltac branches :=
  repeat match goal with
         | |- context [is_Exception ?e] => destruct (is_Exception e)
         end.

Ltac tidy := simpl; rewrite ?Nat.eqb_refl, <- ?app_assoc; simpl.

(** Splitting on everything the code branches on. *)
Ltac split_cases :=
  repeat (simpl;
          match goal with
          | |- context [if ?b then _ else _] => destruct b
          | |- context [match ?x with Returned _ => _ | Raised _ => _ end] =>
              destruct x
          | |- context [match ?x with Some _ => _ | None => _ end] =>
              destruct x
          end).

(** * Properties of the retry wrappers *)

Module RetryFacts.

Import Retry.

Section Loop.

Context {W A E : Type}.
Variable func : W -> outcome A E * W.
Variable p : BackoffPolicy E.
Variable rnd : nat -> Q.

Lemma invocation_succ (k : nat) (w : W) :
  invocation func (S k) w = invocation func k (snd (func w)).
Proof. reflexivity. Qed.

Lemma invocation_zero (w : W) : invocation func 0 w = fst (func w).
Proof. reflexivity. Qed.

Lemma backoff_nonneg (attempt : Z) :
  (0 <= initial_delay p)%Q -> (0 <= exponential_base p)%Q ->
  (0 <= max_delay p)%Q -> (0 <= backoff p attempt)%Q.
Proof.
  intros Hi Hb Hm. unfold backoff.
  apply Q.min_glb; [|exact Hm].
  apply Qmult_le_0_compat; [exact Hi|].
  apply Qpower_0_le; exact Hb.
Qed.

Lemma slept_nonneg (attempt : Z) (drawn : nat) :
  delays_nonneg p rnd -> (0 <= fst (add_jitter p rnd (backoff p attempt) drawn))%Q.
Proof.
  intros (Hi & Hb & Hm & Hr).
  pose proof (backoff_nonneg attempt Hi Hb Hm) as Hd.
  unfold add_jitter. destruct (jitter p); simpl; [|exact Hd].
  apply Qmult_le_0_compat; [exact Hd|].
  specialize (Hr eq_refl drawn). lra.
Qed.

(** With no negative delay, [time.sleep] never raises and the two loops
    cannot be told apart. *)
Lemma sync_loop_async_loop :
  delays_nonneg p rnd ->
  forall todo last drawn w,
    same_behaviour (sync_loop func p rnd todo last drawn w)
                   (async_loop func p rnd todo last drawn w).
Proof.
  intros Hnn. induction todo as [|attempt rest IH]; intros last drawn w; simpl.
  - repeat split.
  - destruct (func w) as [[a|e] w']; [repeat split|].
    destruct (exceptions p e); [|repeat split].
    destruct (attempt >=? max_retries p); [repeat split|].
    pose proof (slept_nonneg attempt drawn Hnn) as Hd.
    destruct (add_jitter p rnd (backoff p attempt) drawn) as [delay drawn'].
    simpl in Hd. apply Qle_bool_iff in Hd. rewrite Hd.
    destruct (IH (Some e) drawn' w') as (Hr & Ha & Hs & Hw).
    unfold same_behaviour, after; simpl.
    repeat split; congruence.
Qed.

(** Every attempt fails retryably: the loop ends at the attempt whose
    index reaches [max_retries], with [RetryErrorFrom] from that failure. *)
Lemma async_loop_exhausts :
  forall m i last drawn w,
    Z.of_nat (i + m) = max_retries p ->
    (forall k, (k <= m)%nat -> fails_retryably p (invocation func k w)) ->
    let r := async_loop func p rnd (map Z.of_nat (seq i (S m))) last drawn w in
    exists e,
      invocation func m w = Raised e /\
      result r = Raised (RetryErrorFrom (max_retries p) e) /\
      attempts (trace r) = S m /\
      List.length (delays (trace r)) = m /\
      world r = world_before func (S m) w.
Proof.
  induction m as [|m IH]; intros i last drawn w Hlast Hfail.
  - destruct (Hfail 0%nat (le_n _)) as (e & He & Hx).
    rewrite invocation_zero in He. simpl.
    destruct (func w) as [o w'] eqn:Hf. simpl in He. subst o.
    rewrite Hx.
    replace (Z.of_nat i >=? max_retries p) with true
      by (symmetry; apply Z.geb_le; lia).
    exists e. unfold invocation. simpl. rewrite ?Hf. simpl. auto.
  - destruct (Hfail 0%nat (Nat.le_0_l _)) as (e & He & Hx).
    rewrite invocation_zero in He.
    change (seq i (S (S m))) with (i :: seq (S i) (S m)).
    cbn [map async_loop].
    destruct (func w) as [o w'] eqn:Hf. simpl in He. subst o.
    rewrite Hx.
    replace (Z.of_nat i >=? max_retries p) with false
      by (symmetry; rewrite Z.geb_leb; apply Z.leb_gt; lia).
    destruct (add_jitter p rnd (backoff p (Z.of_nat i)) drawn) as [delay drawn'].
    destruct (IH (S i) (Some e) drawn' w') as (e' & Hm & Hr & Ha & Hd & Hw).
    + lia.
    + intros k Hk. specialize (Hfail (S k) (le_n_S _ _ Hk)).
      rewrite invocation_succ, Hf in Hfail. exact Hfail.
    + exists e'. rewrite invocation_succ, Hf. simpl snd.
      unfold after. cbn [result trace world app attempts delays List.length world_before].
      rewrite Hr, Ha, Hd, Hw, Hf. auto.
Qed.

Lemma draws_step (delay d : Q) (drawn drawn' : nat) :
  add_jitter p rnd delay drawn = (d, drawn') ->
  drawn' = if jitter p then S drawn else drawn.
Proof.
  unfold add_jitter. destruct (jitter p); intros H; inversion H; reflexivity.
Qed.

(** Whatever [func] does, the [k]-th delay slept is the delay of attempt
    [k], and attempt [k] is not the last one. *)
Lemma async_loop_delay_at :
  forall m i last drawn w k d,
    nth_error (delays (trace (async_loop func p rnd (map Z.of_nat (seq i m))
                                         last drawn w))) k = Some d ->
    d = slept p rnd (Z.of_nat (i + k)) (if jitter p then drawn + k else drawn)
    /\ Z.of_nat (i + k) < max_retries p.
Proof.
  induction m as [|m IH]; intros i last drawn w k d H.
  - simpl in H. destruct last; simpl in H; destruct k; discriminate.
  - change (seq i (S m)) with (i :: seq (S i) m) in H.
    cbn [map async_loop] in H.
    destruct (func w) as [[a|e] w'];
      [simpl in H; destruct k; discriminate|].
    destruct (exceptions p e); [|simpl in H; destruct k; discriminate].
    destruct (Z.of_nat i >=? max_retries p) eqn:Hge;
      [simpl in H; destruct k; discriminate|].
    rewrite Z.geb_leb in Hge. apply Z.leb_gt in Hge.
    destruct (add_jitter p rnd (backoff p (Z.of_nat i)) drawn)
      as [delay drawn'] eqn:HJ.
    unfold after in H. cbn [trace app delays] in H.
    destruct k as [|k].
    + simpl in H. inversion H; subst d. rewrite !Nat.add_0_r.
      split; [|exact Hge].
      unfold slept. destruct (jitter p); rewrite HJ; reflexivity.
    + simpl in H. apply IH in H. destruct H as [Hd Hlt].
      rewrite Nat.add_succ_r. split; [|exact Hlt].
      rewrite Hd. apply draws_step in HJ. subst drawn'.
      destruct (jitter p); [rewrite Nat.add_succ_r|]; reflexivity.
Qed.

(** [func] fails retryably [k] times and then returns [v], within the
    budget: the loop returns [v] after [k + 1] attempts and [k] delays. *)
Lemma async_loop_succeeds :
  forall k m i last drawn w v,
    (k < m)%nat -> Z.of_nat (i + k) <= max_retries p ->
    (forall j, (j < k)%nat -> fails_retryably p (invocation func j w)) ->
    invocation func k w = Returned v ->
    let r := async_loop func p rnd (map Z.of_nat (seq i m)) last drawn w in
    result r = Returned v /\
    attempts (trace r) = S k /\
    delays (trace r) =
      map (fun j => slept p rnd (Z.of_nat (i + j))
                          (if jitter p then (drawn + j)%nat else drawn))
          (seq 0 k) /\
    world r = world_before func (S k) w.
Proof.
  induction k as [|k IH]; intros m i last drawn w v Hm Hlt Hfail Hret;
    (destruct m as [|m]; [lia|]);
    change (seq i (S m)) with (i :: seq (S i) m); cbn [map async_loop].
  - rewrite invocation_zero in Hret. cbn [world_before].
    destruct (func w) as [o w']. simpl in Hret. subst o. simpl. auto.
  - destruct (Hfail 0%nat (Nat.lt_0_succ _)) as (e & He & Hx).
    rewrite invocation_zero in He. rewrite invocation_succ in Hret.
    cbn [world_before].
    destruct (func w) as [o w'] eqn:Hf. simpl in He, Hret. subst o.
    rewrite Hx.
    replace (Z.of_nat i >=? max_retries p) with false
      by (symmetry; rewrite Z.geb_leb; apply Z.leb_gt; lia).
    destruct (add_jitter p rnd (backoff p (Z.of_nat i)) drawn)
      as [delay drawn'] eqn:HJ.
    destruct (IH m (S i) (Some e) drawn' w' v) as (Hr & Ha & Hd & Hw).
    + lia.
    + lia.
    + intros j Hj. specialize (Hfail (S j) (proj1 (Nat.succ_lt_mono _ _) Hj)).
      rewrite invocation_succ, Hf in Hfail. exact Hfail.
    + exact Hret.
    + unfold after. cbn [result trace world app attempts delays snd].
      rewrite Hr, Ha, Hd, Hw. repeat split.
      change (seq 0 (S k)) with (0%nat :: seq 1 k). cbn [map].
      rewrite <- seq_shift, map_map, !Nat.add_0_r.
      f_equal.
      * unfold slept. destruct (jitter p); rewrite HJ; reflexivity.
      * apply draws_step in HJ. subst drawn'.
        apply map_ext. intros j. rewrite !Nat.add_succ_r.
        destruct (jitter p); reflexivity.
Qed.

(** While [func] keeps failing retryably and the budget is not used up,
    a delay is slept after each failure. *)
Lemma async_loop_sleeps :
  forall k m i last drawn w,
    (k < m)%nat -> Z.of_nat (i + k) < max_retries p ->
    (forall j, (j <= k)%nat -> fails_retryably p (invocation func j w)) ->
    exists d,
      nth_error (delays (trace (async_loop func p rnd (map Z.of_nat (seq i m))
                                           last drawn w))) k = Some d.
Proof.
  induction k as [|k IH]; intros m i last drawn w Hm Hlt Hfail;
    (destruct m as [|m]; [lia|]);
    change (seq i (S m)) with (i :: seq (S i) m); cbn [map async_loop];
    destruct (Hfail 0%nat (Nat.le_0_l _)) as (e & He & Hx);
    rewrite invocation_zero in He;
    destruct (func w) as [o w'] eqn:Hf; simpl in He; subst o;
    rewrite Hx;
    (replace (Z.of_nat i >=? max_retries p) with false
      by (symmetry; rewrite Z.geb_leb; apply Z.leb_gt; lia));
    destruct (add_jitter p rnd (backoff p (Z.of_nat i)) drawn)
      as [delay drawn'];
    unfold after; cbn [trace app delays nth_error].
  - exists delay. reflexivity.
  - apply IH; [lia|lia|].
    intros j Hj. specialize (Hfail (S j) (le_n_S _ _ Hj)).
    rewrite invocation_succ, Hf in Hfail. exact Hfail.
Qed.

Lemma left_in_loop_later (w : W) (r : outcome A (raised E)) :
  left_in_loop func p (snd (func w)) r -> left_in_loop func p w r.
Proof.
  destruct r as [a|[e|n e|d e|e|]]; simpl; auto.
  - intros [k H]. exists (S k). exact H.
  - intros [k H]. exists (S k). exact H.
  - intros [Hn [k H]]. split; [exact Hn|]. exists (S k). exact H.
Qed.

(** A loop whose last attempt index reaches [max_retries] is left from
    inside. *)
Lemma async_loop_left_in_loop :
  forall todo last drawn w,
    todo <> [] -> max_retries p <= List.last todo 0 ->
    left_in_loop func p w (result (async_loop func p rnd todo last drawn w)).
Proof.
  induction todo as [|attempt rest IH]; intros last drawn w Hne Hlast;
    [congruence|].
  cbn [async_loop].
  destruct (func w) as [[a|e] w'] eqn:Hf.
  - simpl. exists 0%nat. rewrite invocation_zero, Hf. reflexivity.
  - destruct (exceptions p e) eqn:Hx.
    + destruct (attempt >=? max_retries p) eqn:Hge.
      * simpl. split; [reflexivity|]. exists 0%nat.
        rewrite invocation_zero, Hf. auto.
      * rewrite Z.geb_leb in Hge. apply Z.leb_gt in Hge.
        destruct (add_jitter p rnd (backoff p attempt) drawn) as [delay drawn'].
        unfold after. cbn [result].
        apply left_in_loop_later. rewrite Hf. cbn [snd].
        destruct rest as [|next rest']; [simpl in Hlast; lia|].
        apply IH; [discriminate|exact Hlast].
    + simpl. exists 0%nat. rewrite invocation_zero, Hf. auto.
Qed.

Lemma sync_loop_left_in_loop :
  forall todo last drawn w,
    todo <> [] -> max_retries p <= List.last todo 0 ->
    left_in_loop func p w (result (sync_loop func p rnd todo last drawn w)).
Proof.
  induction todo as [|attempt rest IH]; intros last drawn w Hne Hlast;
    [congruence|].
  cbn [sync_loop].
  destruct (func w) as [[a|e] w'] eqn:Hf.
  - simpl. exists 0%nat. rewrite invocation_zero, Hf. reflexivity.
  - destruct (exceptions p e) eqn:Hx.
    + destruct (attempt >=? max_retries p) eqn:Hge.
      * simpl. split; [reflexivity|]. exists 0%nat.
        rewrite invocation_zero, Hf. auto.
      * rewrite Z.geb_leb in Hge. apply Z.leb_gt in Hge.
        destruct (add_jitter p rnd (backoff p attempt) drawn) as [delay drawn'].
        destruct (Qle_bool 0 delay) eqn:Hd.
        -- unfold after. cbn [result].
           apply left_in_loop_later. rewrite Hf. cbn [snd].
           destruct rest as [|next rest']; [simpl in Hlast; lia|].
           apply IH; [discriminate|exact Hlast].
        -- simpl. apply Qnot_le_lt. intros Hle.
           apply Qle_bool_iff in Hle. congruence.
    + simpl. exists 0%nat. rewrite invocation_zero, Hf. auto.
Qed.

Lemma range_succ (n : nat) :
  range (Z.of_nat n + 1) = map Z.of_nat (seq 0 (S n)).
Proof.
  unfold range. f_equal. f_equal. lia.
Qed.

Lemma range_last (n : Z) :
  0 <= n -> range (n + 1) <> [] /\ List.last (range (n + 1)) 0 = n.
Proof.
  intros Hn. unfold range.
  replace (Z.to_nat (n + 1)) with (S (Z.to_nat n)) by lia.
  rewrite seq_S, map_app. simpl. split.
  - intros H. apply app_eq_nil in H. destruct H; discriminate.
  - rewrite last_last. lia.
Qed.

Lemma well_formed_delays_nonneg :
  well_formed p -> unit_draws rnd -> delays_nonneg p rnd.
Proof.
  intros (_ & Hi & Hm & Hb) Hr. unfold delays_nonneg.
  repeat split; try lra.
  intros _ k. apply Hr.
Qed.

Lemma decorator_async_wrapper (iscoroutinefunction : bool) (w : W) :
  delays_nonneg p rnd ->
  same_behaviour (decorator func p rnd iscoroutinefunction w)
                 (async_wrapper func p rnd w).
Proof.
  intros Hnn. destruct iscoroutinefunction; simpl.
  - repeat split.
  - apply sync_loop_async_loop. exact Hnn.
Qed.

Lemma async_loop_never_SleepValueError :
  forall todo last drawn w d e,
    result (async_loop func p rnd todo last drawn w)
      <> Raised (SleepValueError d e).
Proof.
  induction todo as [|attempt rest IH]; intros last drawn w d e; simpl.
  - destruct last; discriminate.
  - destruct (func w) as [[a|e'] w']; [discriminate|].
    destruct (exceptions p e'); [|discriminate].
    destruct (attempt >=? max_retries p); [discriminate|].
    destruct (add_jitter p rnd (backoff p attempt) drawn) as [delay drawn'].
    apply IH.
Qed.

(** With a negative budget the loop body never runs and the code after
    the loop is reached. *)
Lemma negative_budget_falls_through (iscoroutinefunction : bool) (w : W) :
  max_retries p < 0 ->
  result (decorator func p rnd iscoroutinefunction w)
    = Raised RetryErrorUnexpected.
Proof.
  intros Hneg.
  destruct iscoroutinefunction; simpl;
    unfold async_wrapper, sync_wrapper, range;
    replace (Z.to_nat (max_retries p + 1)) with 0%nat by lia;
    reflexivity.
Qed.

End Loop.










(** Outside the data model the two wrappers differ: with a negative
    [initial_delay], [time.sleep] raises where [asyncio.sleep] returns. *)
Example negative_delay_separates_the_wrappers :
  let p := {| max_retries := 1; initial_delay := -1 # 1; max_delay := 60;
              exponential_base := 2; jitter := false;
              exceptions := network_errors |} in
  result (sync_wrapper (scripted [ConnectionError] tt) p (constant_draws 0) 0%nat)
    = Raised (SleepValueError (-1 # 1) ConnectionError) /\
  result (async_wrapper (scripted [ConnectionError] tt) p (constant_draws 0) 0%nat)
    = Returned tt.
Proof. split; reflexivity. Qed.



End RetryFacts.

(** * Properties of the two managers *)

Module MemoryFacts.

Import Retry.

Lemma pools_created_app (h1 h2 : list entry) :
  pools_created (h1 ++ h2) = (pools_created h1 + pools_created h2)%nat.
Proof.
  induction h1 as [|x h1 IH]; [reflexivity|].
  destruct x as [c ok|lvl msg]; [destruct c, ok|]; simpl; rewrite IH; reflexivity.
Qed.

Lemma clients_created_app (h1 h2 : list entry) :
  clients_created (h1 ++ h2) = (clients_created h1 + clients_created h2)%nat.
Proof.
  induction h1 as [|x h1 IH]; [reflexivity|].
  destruct x as [c ok|lvl msg]; [destruct c, ok|]; simpl; rewrite IH; reflexivity.
Qed.

(** A property of the world that the wrapped function keeps is kept by
    the whole loop. *)
Lemma async_loop_preserves {W A E : Type}
    (func : W -> outcome A E * W) (p : BackoffPolicy E) (rnd : nat -> Q)
    (P : W -> Prop) :
  (forall w, P w -> P (snd (func w))) ->
  forall todo last drawn w,
    P w -> P (world (async_loop func p rnd todo last drawn w)).
Proof.
  intros Hkeep. induction todo as [|attempt rest IH]; intros last drawn w Hw; simpl.
  - destruct last; exact Hw.
  - specialize (Hkeep w Hw).
    destruct (func w) as [[a|e] w']; simpl in Hkeep; [exact Hkeep|].
    destruct (exceptions p e); [|exact Hkeep].
    destruct (attempt >=? max_retries p); [exact Hkeep|].
    destruct (add_jitter p rnd (backoff p attempt) drawn) as [delay drawn'].
    simpl. apply IH. exact Hkeep.
Qed.

(** [connect_body] on a connected manager: a warning, nothing else. *)
Lemma body_connected (m : manager) (self : ref) (w : World) (q : nat) :
  handle m w self = Some q ->
  connect_body_of m self w
    = (Returned tt, record (Log Warning (already_exists m)) w).
Proof.
  intros H. destruct m; simpl in *; run_code; rewrite H; reflexivity.
Qed.

(** [connect_body] on a disconnected manager: either the construction
    ([create_pool], [from_url]) raises and the manager stays disconnected,
    or it returns and the handle is stored, whatever the probe does
    next. *)
Lemma body_disconnected (m : manager) (self : ref) (w : World) :
  handle m w self = None ->
  exists h,
    history (snd (connect_body_of m self w)) = history w ++ h /\
    ((constructed m h = 0%nat /\
      handle m (snd (connect_body_of m self w)) self = None /\
      exists e, fst (connect_body_of m self w) = Raised e) \/
     (constructed m h = 1%nat /\
      exists q, handle m (snd (connect_body_of m self w)) self = Some q)).
Proof.
  intros H. destruct m; simpl in *; run_code; rewrite H; simpl.
  - destruct (env w (tick w) CreatePool) as [q|e] eqn:Hc; simpl.
    + destruct (env w (S (tick w)) (PoolAcquire q)) as [c|e] eqn:Ha; simpl;
        [destruct (env w (S (S (tick w))) (ConnFetchval c "SELECT version()"))
           as [v|e] eqn:Hv; simpl;
         destruct (env w (S (S (S (tick w)))) (PoolRelease q c)) as [u|e'];
         simpl|];
        branches; tidy;
        (eexists; split; [reflexivity|right; split; [reflexivity|eauto]]).
    + branches; tidy; rewrite ?H;
        (eexists; split; [reflexivity|left; split; [reflexivity|eauto]]).
  - destruct (env w (tick w) RedisFromUrl) as [q|e] eqn:Hc; simpl.
    + destruct (env w (S (tick w)) (RedisPing q)) as [b|e] eqn:Ha; simpl;
        [destruct (env w (S (S (tick w))) (RedisInfo q)) as [v|e] eqn:Hv;
         simpl|];
        branches; tidy;
        (eexists; split; [reflexivity|right; split; [reflexivity|eauto]]).
    + branches; tidy; rewrite ?H;
        (eexists; split; [reflexivity|left; split; [reflexivity|eauto]]).
Qed.

Lemma constructed_app (m : manager) (h1 h2 : list entry) :
  constructed m (h1 ++ h2) = (constructed m h1 + constructed m h2)%nat.
Proof.
  destruct m; [apply pools_created_app|apply clients_created_app].
Qed.

Lemma connect_of_unfold (m : manager) (rnd : nat -> Q) (self : ref) (w : World) :
  connect_of m rnd self w
    = async_loop (connect_body_of m self) (retry_on_network_error 3 1) rnd
                 [0; 1; 2; 3] None 0%nat w.
Proof. destruct m; reflexivity. Qed.

(** The loop of [connect]: from a connected manager nothing is
    constructed; from a disconnected one at most one pool is, and exactly
    one when the loop returns. *)
Lemma connect_loop (m : manager) (self : ref) (rnd : nat -> Q) :
  forall todo last drawn w,
    let r := async_loop (connect_body_of m self) (retry_on_network_error 3 1)
                        rnd todo last drawn w in
    exists h,
      history (world r) = history w ++ h /\
      match handle m w self with
      | Some q =>
          constructed m h = 0%nat /\ handle m (world r) self = Some q /\
          (todo <> [] -> result r = Returned tt)
      | None =>
          (constructed m h <= 1)%nat /\
          (result r = Returned tt ->
           constructed m h = 1%nat /\ exists q, handle m (world r) self = Some q)
      end.
Proof.
  induction todo as [|attempt rest IH]; intros last drawn w; cbn zeta.
  - exists []. rewrite app_nil_r.
    split; [destruct last; reflexivity|].
    destruct (handle m w self) as [q|] eqn:Hh.
    + destruct m, last; simpl in *; repeat split; auto; congruence.
    + destruct m, last; simpl; split; auto; discriminate.
  - cbn [async_loop].
    destruct (handle m w self) as [q|] eqn:Hh.
    + rewrite (body_connected m self w Hh). simpl.
      eexists; split; [reflexivity|].
      destruct m; simpl in *; auto.
    + destruct (body_disconnected m self w Hh) as (h1 & Hh1 & Hcase).
      destruct (connect_body_of m self w) as [[[]|e] w'] eqn:Hb; simpl in *.
      * exists h1. split; [exact Hh1|].
        destruct Hcase as [(_ & _ & e & He)|(Hc & Hq)]; [discriminate|].
        rewrite Hc. auto.
      * assert (Hle : (constructed m h1 <= 1)%nat)
          by (destruct Hcase as [(Hc & _)|(Hc & _)]; rewrite Hc; auto).
        destruct (network_errors e);
          [|exists h1; simpl; repeat split; auto; discriminate].
        destruct (attempt >=? 3);
          [exists h1; simpl; repeat split; auto; discriminate|].
        destruct (IH (Some e) (S drawn) w') as (h2 & Hh2 & Hrest).
        exists (h1 ++ h2). simpl.
        split; [etransitivity; [exact Hh2|]; rewrite Hh1, app_assoc; reflexivity|].
        rewrite constructed_app.
        destruct Hcase as [(Hc & Hnone & _)|(Hc & q & Hq)]; rewrite Hc.
        -- rewrite Hnone in Hrest. exact Hrest.
        -- rewrite Hq in Hrest. destruct Hrest as (Hz & Hsame & _).
           rewrite Hz. split; [auto|]. intros _. split; [reflexivity|eauto].
Qed.

(** [connect_body] never touches the registry slots. *)
Lemma body_keeps_slot (m m' : manager) (self : ref) (w : World) :
  slot m' (snd (connect_body_of m self w)) = slot m' w.
Proof.
  destruct m; simpl; run_code.
  - destruct (pool (databases w self)); [destruct m'; reflexivity|]. simpl.
    destruct (env w (tick w) CreatePool) as [q|e]; simpl;
      [destruct (env w (S (tick w)) (PoolAcquire q)) as [c|e]; simpl;
       [destruct (env w (S (S (tick w))) (ConnFetchval c "SELECT version()"))
          as [v|e]; simpl;
        destruct (env w (S (S (S (tick w)))) (PoolRelease q c)) as [u|e'];
        simpl|]|];
      branches; destruct m'; reflexivity.
  - destruct (client (caches w self)); [destruct m'; reflexivity|]. simpl.
    destruct (env w (tick w) RedisFromUrl) as [q|e]; simpl;
      [destruct (env w (S (tick w)) (RedisPing q)) as [b|e]; simpl;
       [destruct (env w (S (S (tick w))) (RedisInfo q)) as [v|e]; simpl|]|];
      branches; destruct m'; reflexivity.
Qed.

Lemma connect_keeps_slot (m m' : manager) (rnd : nat -> Q) (self : ref) (w : World) :
  slot m' (world (connect_of m rnd self w)) = slot m' w.
Proof.
  rewrite connect_of_unfold.
  apply (async_loop_preserves (connect_body_of m self)
           (retry_on_network_error 3 1) rnd
           (fun w' => slot m' w' = slot m' w));
    [|reflexivity].
  intros w0 H0. rewrite body_keeps_slot. exact H0.
Qed.

(** C8.  [connect()] is idempotent for either manager: when a first call
    on a disconnected manager has returned, a second call returns without
    error after a single invocation of the body and no delay, logs the
    warning and changes nothing else in the world; over both calls exactly
    one pool (client) was constructed. *)
Theorem connect_is_idempotent
    (m : manager) (rnd rnd' : nat -> Q) (self : ref) (w : World) :
  handle m w self = None ->
  result (connect_of m rnd self w) = Returned tt ->
  result (connect_of m rnd' self (world (connect_of m rnd self w)))
    = Returned tt /\
  trace (connect_of m rnd' self (world (connect_of m rnd self w)))
    = [Invoked] /\
  world (connect_of m rnd' self (world (connect_of m rnd self w)))
    = record (Log Warning (already_exists m)) (world (connect_of m rnd self w)) /\
  handle m (world (connect_of m rnd self w)) self <> None /\
  exists h,
    history (world (connect_of m rnd' self (world (connect_of m rnd self w))))
      = history w ++ h /\
    constructed m h = 1%nat.
Proof.
  intros Hnone Hres.
  rewrite connect_of_unfold in Hres.
  destruct (connect_loop m self rnd [0; 1; 2; 3] None 0 w) as (h & Hh & Hc).
  rewrite Hnone in Hc. destruct Hc as (_ & Hret).
  destruct (Hret Hres) as (Hone & q & Hq).
  rewrite (connect_of_unfold m rnd self w).
  set (w1 := world (async_loop (connect_body_of m self)
                      (retry_on_network_error 3 1) rnd [0; 1; 2; 3] None 0 w))
    in *.
  rewrite connect_of_unfold. cbn [async_loop].
  rewrite (body_connected m self w1 Hq). simpl.
  repeat split.
  - rewrite Hq. discriminate.
  - exists (h ++ [Log Warning (already_exists m)]). split.
    + rewrite Hh, app_assoc. reflexivity.
    + rewrite constructed_app, Hone. destruct m; reflexivity.
Qed.

Lemma connect_is_idempotent_witness :
  result (connect_of Relational (constant_draws 0) 0%nat
            (world (connect_of Relational (constant_draws 0) 0%nat
                      (start healthy))))
    = Returned tt /\
  trace (connect_of Relational (constant_draws 0) 0%nat
           (world (connect_of Relational (constant_draws 0) 0%nat
                     (start healthy))))
    = [Invoked] /\
  world (connect_of Relational (constant_draws 0) 0%nat
           (world (connect_of Relational (constant_draws 0) 0%nat
                     (start healthy))))
    = record (Log Warning (already_exists Relational))
             (world (connect_of Relational (constant_draws 0) 0%nat
                       (start healthy))) /\
  handle Relational
         (world (connect_of Relational (constant_draws 0) 0%nat (start healthy)))
         0%nat <> None /\
  exists h,
    history (world (connect_of Relational (constant_draws 0) 0%nat
                      (world (connect_of Relational (constant_draws 0) 0%nat
                                (start healthy)))))
      = history (start healthy) ++ h /\
    constructed Relational h = 1%nat.
Proof.
  apply (connect_is_idempotent Relational (constant_draws 0) (constant_draws 0)
           0%nat (start healthy)).
  - reflexivity.
  - reflexivity.
Defined.

(** C6, as amended.  [init_database] and [init_cache] on an empty slot
    construct the manager and store it in the slot before they call
    [connect()]: the instance is in the slot afterwards whether
    [connect()] returned or raised, a failure of [connect()] reaches the
    caller, and a later [get_database] / [get_cache] returns the same
    instance. *)
Theorem init_stores_before_connecting
    (m : manager) (rnd : nat -> Q) (w : World) :
  slot m w = None ->
  slot m (snd (init_of m rnd w)) = Some (next_ref m w) /\
  fst (get_of m (snd (init_of m rnd w))) = Returned (next_ref m w) /\
  match result (connect_of m rnd (next_ref m w) (snd (get_of m w))) with
  | Returned _ => fst (init_of m rnd w) = Returned (next_ref m w)
  | Raised x => fst (init_of m rnd w) = Raised (exn_of_raised x)
  end.
Proof.
  intros Hslot.
  assert (Hget : get_of m w
                 = (Returned (next_ref m w), snd (get_of m w)) /\
                 slot m (snd (get_of m w)) = Some (next_ref m w)).
  { destruct m; simpl in *;
      unfold Database.get_database, Cache.get_cache; rewrite Hslot;
      split; reflexivity. }
  remember (snd (get_of m w)) as w1 eqn:Hw1. clear Hw1.
  remember (next_ref m w) as db eqn:Hdb. clear Hdb.
  destruct Hget as [Hget Hstored].
  pose proof (connect_keeps_slot m m rnd db w1) as Hkeep.
  rewrite Hstored in Hkeep.
  assert (Hinit : init_of m rnd w
                  = (match result (connect_of m rnd db w1) with
                     | Returned _ => Returned db
                     | Raised x => Raised (exn_of_raised x)
                     end,
                     world (connect_of m rnd db w1))).
  { destruct m; simpl in *;
      unfold Database.init_database, Cache.init_cache, bind;
      rewrite Hget; unfold await;
      match goal with
      | |- context [result ?r] => destruct (result r)
      end; reflexivity. }
  rewrite Hinit. simpl. repeat split.
  - exact Hkeep.
  - destruct m; simpl in *;
      unfold Database.get_database, Cache.get_cache; rewrite Hkeep;
      reflexivity.
  - destruct (result (connect_of m rnd db w1)); reflexivity.
Qed.

Lemma init_stores_before_connecting_witness :
  slot Relational
       (snd (init_of Relational (constant_draws 0) (start (down ConnectionError))))
    = Some 0%nat /\
  fst (get_of Relational
         (snd (init_of Relational (constant_draws 0)
                 (start (down ConnectionError)))))
    = Returned 0%nat /\
  fst (init_of Relational (constant_draws 0) (start (down ConnectionError)))
    = Raised (RetryError 3 ConnectionError).
Proof.
  refine (match @init_stores_before_connecting Relational (constant_draws 0)
                  (start (down ConnectionError)) eq_refl
          with conj H1 (conj H2 H3) => conj H1 (conj H2 H3) end).
Defined.

(** C6, as stated, fails: with PostgreSQL down [init_database] raises and
    the never-connected instance stays in [_db]. *)
Lemma failed_init_leaves_instance_stored : ~ registry_stores_only_on_success.
Proof.
  intros H.
  assert (Hfst : fst (init_of Relational (constant_draws 0)
                        (start (down ConnectionError)))
                 = Raised (RetryError 3 ConnectionError))
    by (vm_compute; reflexivity).
  assert (Hsnd : slot Relational
                   (snd (init_of Relational (constant_draws 0)
                           (start (down ConnectionError))))
                 = Some 0%nat)
    by (vm_compute; reflexivity).
  destruct (init_of Relational (constant_draws 0) (start (down ConnectionError)))
    as [o w'] eqn:Hrun.
  simpl in Hfst, Hsnd. subst o.
  specialize (H Relational (constant_draws 0) (start (down ConnectionError))
                (RetryError 3 ConnectionError) w' eq_refl Hrun).
  simpl in H. congruence.
Qed.

(** C5: where the code departs from the specification.  A failure of
    the probe, after the handle was stored, leaves the handle set:
    - PostgreSQL refuses the first three [create_pool] calls and the probe
      of the fourth attempt: [connect()] raises [RetryError], the pool is
      set;
    - the probe fails with an error that is not retried: it propagates,
      the pool is set;
    - Redis is down: the first attempt fails at [ping], the second finds
      the client set and [connect()] returns;
    - where [create_pool] itself fails every time, the manager stays
      disconnected. *)
Theorem failed_connect_leaves_handle_set :
  (result (Database.connect (constant_draws 0) 0%nat
             (start (failing_first 3 ConnectionError (probe_fails ConnectionError))))
     = Raised (RetryErrorFrom 3 ConnectionError) /\
   pool (databases
           (world (Database.connect (constant_draws 0) 0%nat
                     (start (failing_first 3 ConnectionError
                               (probe_fails ConnectionError))))) 0%nat)
     = Some 1%nat) /\
  (result (Database.connect (constant_draws 0) 0%nat
             (start (probe_fails (OtherException "InvalidPasswordError"))))
     = Raised (Propagated (OtherException "InvalidPasswordError")) /\
   pool (databases
           (world (Database.connect (constant_draws 0) 0%nat
                     (start (probe_fails (OtherException "InvalidPasswordError")))))
           0%nat)
     = Some 1%nat) /\
  (result (Cache.connect (constant_draws 0) 0%nat
             (start (redis_down RedisConnectionError)))
     = Returned tt /\
   some_call_failed
     (history (world (Cache.connect (constant_draws 0) 0%nat
                        (start (redis_down RedisConnectionError))))) = true /\
   client (caches
             (world (Cache.connect (constant_draws 0) 0%nat
                       (start (redis_down RedisConnectionError)))) 0%nat)
     = Some 2%nat) /\
  (result (Cache.connect (constant_draws 0) 0%nat
             (start (redis_down (OtherException "AuthenticationError"))))
     = Raised (Propagated (OtherException "AuthenticationError")) /\
   client (caches
             (world (Cache.connect (constant_draws 0) 0%nat
                       (start (redis_down (OtherException "AuthenticationError")))))
             0%nat)
     = Some 2%nat) /\
  (result (Database.connect (constant_draws 0) 0%nat (start (down ConnectionError)))
     = Raised (RetryErrorFrom 3 ConnectionError) /\
   pool (databases
           (world (Database.connect (constant_draws 0) 0%nat
                     (start (down ConnectionError)))) 0%nat)
     = None).
Proof.
  repeat split; vm_compute; reflexivity.
Qed.

(** C4.  A transaction scope opened through [Database.transaction]
    holds the connection it borrowed from the manager's pool; when the
    block returns the transaction is committed, when it raises the
    transaction is rolled back and not committed; in both cases
    [pool.release] is called on that connection next, also when the commit
    or the rollback itself raised. *)
Theorem transaction_scope_ends_then_releases
    (A : Type) (self : ref) (block : Connection -> M A)
    (w0 w w1 w2 : World) (ctx : Database.TransactionContext)
    (c : Connection) (o : outcome A exn) :
  Database.transaction self w0 = (Returned ctx, w) ->
  Database.aenter ctx w = (Returned c, w1) ->
  block c w1 = (o, w2) ->
  let ending := if returned o then TransCommit (Database.trans ctx)
                else TransRollback (Database.trans ctx) in
  let release := PoolRelease (Database.tpool ctx) (Database.conn ctx) in
  pool (databases w0 self) = Some (Database.tpool ctx) /\
  env w0 (tick w0) (PoolAcquire (Database.tpool ctx))
    = Returned (Database.conn ctx) /\
  c = Database.conn ctx /\
  history (snd (Database.async_with ctx block w))
    = history w2 ++
      [Call ending (returned (env w2 (tick w2) ending));
       Call release (returned (env w2 (S (tick w2)) release))] /\
  fst (Database.async_with ctx block w)
    = match env w2 (S (tick w2)) release with
      | Raised e => Raised e
      | Returned _ =>
        match env w2 (tick w2) ending with
        | Raised e => Raised e
        | Returned _ => o
        end
      end.
Proof.
  intros Htrans Henter Hblock.
  assert (Hctx : pool (databases w0 self) = Some (Database.tpool ctx) /\
                 env w0 (tick w0) (PoolAcquire (Database.tpool ctx))
                   = Returned (Database.conn ctx)).
  { revert Htrans. run_code. simpl.
    destruct (pool (databases w0 self)) as [q|];
      [|simpl; intros Heq; inversion Heq].
    destruct (env w0 (tick w0) (PoolAcquire q)) as [k|e] eqn:Ha;
      simpl; intros Heq; inversion Heq; subst; simpl; auto. }
  assert (Hc : c = Database.conn ctx).
  { revert Henter. run_code. simpl.
    destruct (env w (tick w) (TransStart (Database.trans ctx)));
      simpl; intros Heq; inversion Heq; reflexivity. }
  destruct Hctx as [Hpool Hacq].
  split; [exact Hpool|]. split; [exact Hacq|]. split; [exact Hc|].
  unfold Database.async_with. rewrite Henter, Hblock.
  destruct o as [a|e]; cbn [returned]; run_code; simpl.
  - destruct (env w2 (tick w2) (TransCommit (Database.trans ctx))) as [[]|e1];
      simpl;
      destruct (env w2 (S (tick w2))
                  (PoolRelease (Database.tpool ctx) (Database.conn ctx)))
        as [[]|e2];
      simpl; rewrite <- app_assoc; split; reflexivity.
  - destruct (env w2 (tick w2) (TransRollback (Database.trans ctx))) as [[]|e1];
      simpl;
      destruct (env w2 (S (tick w2))
                  (PoolRelease (Database.tpool ctx) (Database.conn ctx)))
        as [[]|e2];
      simpl; rewrite <- app_assoc; split; reflexivity.
Qed.

Lemma transaction_scope_ends_then_releases_witness :
  history (snd (Database.async_with
                  {| Database.conn := 7%nat; Database.trans := 7%nat;
                     Database.tpool := 1%nat |}
                  (fun _ => raise (A:=unit) ValueError)
                  (snd (Database.transaction 0%nat
                          (connected_world (ending_fails (OtherException "deadlock")))))))
    = [Call (PoolAcquire 1%nat) true; Call (TransStart 7%nat) true;
       Call (TransRollback 7%nat) false; Call (PoolRelease 1%nat 7%nat) true].
Proof.
  refine (match @transaction_scope_ends_then_releases unit 0%nat
                  (fun _ => raise ValueError)
                  (connected_world (ending_fails (OtherException "deadlock")))
                  (snd (Database.transaction 0%nat
                          (connected_world (ending_fails (OtherException "deadlock")))))
                  (snd (Database.aenter
                          {| Database.conn := 7%nat; Database.trans := 7%nat;
                             Database.tpool := 1%nat |}
                          (snd (Database.transaction 0%nat
                                  (connected_world
                                     (ending_fails (OtherException "deadlock")))))))
                  (snd (Database.aenter
                          {| Database.conn := 7%nat; Database.trans := 7%nat;
                             Database.tpool := 1%nat |}
                          (snd (Database.transaction 0%nat
                                  (connected_world
                                     (ending_fails (OtherException "deadlock")))))))
                  {| Database.conn := 7%nat; Database.trans := 7%nat;
                     Database.tpool := 1%nat |}
                  7%nat (Raised ValueError) eq_refl eq_refl eq_refl
          with conj _ (conj _ (conj _ (conj H _))) => H end).
Defined.



End MemoryFacts.

(** * Further properties of the retry wrappers *)

Module RetryMore.

Import Retry.

Section Loop.

Context {W A E : Type}.
Variable func : W -> outcome A E * W.
Variable p : BackoffPolicy E.
Variable rnd : nat -> Q.

(** [func] fails retryably [k] times and then raises an exception that
    [exceptions] does not match: the loop lets it through at once. *)
Lemma async_loop_propagates :
  forall k m i last drawn w e,
    (k < m)%nat -> Z.of_nat (i + k) <= max_retries p ->
    (forall j, (j < k)%nat -> fails_retryably p (invocation func j w)) ->
    invocation func k w = Raised e -> exceptions p e = false ->
    let r := async_loop func p rnd (map Z.of_nat (seq i m)) last drawn w in
    result r = Raised (Propagated e) /\
    attempts (trace r) = S k /\
    List.length (delays (trace r)) = k /\
    world r = world_before func (S k) w.
Proof.
  induction k as [|k IH]; intros m i last drawn w e Hm Hlt Hfail Hret Hno;
    (destruct m as [|m]; [lia|]);
    change (seq i (S m)) with (i :: seq (S i) m); cbn [map async_loop].
  - rewrite RetryFacts.invocation_zero in Hret. cbn [world_before].
    destruct (func w) as [o w']. simpl in Hret. subst o.
    rewrite Hno. simpl. auto.
  - destruct (Hfail 0%nat (Nat.lt_0_succ _)) as (e0 & He & Hx).
    rewrite RetryFacts.invocation_zero in He.
    rewrite RetryFacts.invocation_succ in Hret.
    cbn [world_before].
    destruct (func w) as [o w'] eqn:Hf. simpl in He, Hret. subst o.
    rewrite Hx.
    replace (Z.of_nat i >=? max_retries p) with false
      by (symmetry; rewrite Z.geb_leb; apply Z.leb_gt; lia).
    destruct (add_jitter p rnd (backoff p (Z.of_nat i)) drawn)
      as [delay drawn'].
    destruct (IH m (S i) (Some e0) drawn' w' e) as (Hr & Ha & Hd & Hw).
    + lia.
    + lia.
    + intros j Hj. specialize (Hfail (S j) (proj1 (Nat.succ_lt_mono _ _) Hj)).
      rewrite RetryFacts.invocation_succ, Hf in Hfail. exact Hfail.
    + exact Hret.
    + exact Hno.
    + unfold after.
      cbn [result trace world app attempts delays snd List.length].
      rewrite Hr, Ha, Hd, Hw. auto.
Qed.

(** The loop only ever calls [func]: the world it leaves is the world
    after as many invocations as it made attempts; it makes at most one
    attempt per index; and it sleeps once after every attempt but the one
    it leaves from. *)
Lemma async_loop_accounting :
  forall todo last drawn w,
    let r := async_loop func p rnd todo last drawn w in
    world r = world_before func (attempts (trace r)) w /\
    (attempts (trace r) <= List.length todo)%nat /\
    attempts (trace r)
      = ((if fell_through (result r) then 0 else 1)
         + List.length (delays (trace r)))%nat.
Proof.
  induction todo as [|attempt rest IH]; intros last drawn w; cbn zeta.
  - simpl. destruct last; simpl; auto.
  - cbn [async_loop].
    destruct (func w) as [[a|e] w'] eqn:Hf; [simpl; rewrite Hf; auto with arith|].
    destruct (exceptions p e); [|simpl; rewrite Hf; auto with arith].
    destruct (attempt >=? max_retries p);
      [simpl; rewrite Hf; auto with arith|].
    destruct (add_jitter p rnd (backoff p attempt) drawn) as [delay drawn'].
    destruct (IH (Some e) drawn' w') as (Hw & Hle & Heq).
    unfold after.
    cbn [result trace world app attempts delays List.length world_before].
    rewrite Hf. cbn [snd]. repeat split.
    + exact Hw.
    + lia.
    + rewrite Heq. lia.
Qed.

End Loop.



(** X2.  Whatever the wrapped function does, a wrapper makes at most
    [max_retries + 1] attempts, sleeps exactly once between two
    consecutive attempts and never after the last one, and changes the
    world only through its invocations of the function. *)
Theorem attempts_and_delays_accounting
    (W A E : Type) (func : W -> outcome A E * W) (p : BackoffPolicy E)
    (rnd : nat -> Q) (iscoroutinefunction : bool) (w : W) :
  well_formed p -> unit_draws rnd ->
  (attempts (trace (decorator func p rnd iscoroutinefunction w))
     <= Z.to_nat (max_retries p) + 1)%nat /\
  attempts (trace (decorator func p rnd iscoroutinefunction w))
    = S (List.length (delays (trace (decorator func p rnd iscoroutinefunction w)))) /\
  world (decorator func p rnd iscoroutinefunction w)
    = world_before func
        (attempts (trace (decorator func p rnd iscoroutinefunction w))) w.
Proof.
  intros Hwf Hr.
  pose proof (@RetryFacts.well_formed_delays_nonneg E p rnd Hwf Hr) as Hnn.
  destruct (@RetryFacts.decorator_async_wrapper W A E func p rnd
              iscoroutinefunction w Hnn) as (_ & Hatt & Hdel & Hwld).
  rewrite Hatt, Hdel, Hwld. unfold async_wrapper.
  destruct Hwf as (Hn & _).
  destruct (RetryFacts.range_last Hn) as [Hne Hlast].
  pose proof (@RetryFacts.async_loop_left_in_loop W A E func p rnd
                (range (max_retries p + 1)) None 0%nat w Hne
                ltac:(rewrite Hlast; lia)) as Hin.
  destruct (@async_loop_accounting W A E func p rnd
              (range (max_retries p + 1)) None 0%nat w) as (Hw & Hle & Heq).
  assert (Hft : fell_through
                  (result (async_loop func p rnd (range (max_retries p + 1))
                                      None 0%nat w)) = false).
  { destruct (result (async_loop func p rnd (range (max_retries p + 1))
                                 None 0%nat w)) as [a|[e|n e|d e|e|]];
      simpl in *; try reflexivity; contradiction. }
  rewrite Hft in Heq. repeat split.
  - unfold range in *. rewrite length_map, length_seq in Hle. lia.
  - exact Heq.
  - exact Hw.
Qed.

Lemma attempts_and_delays_accounting_witness :
  (attempts (trace (decorator (scripted [ConnectionError; TimeoutError] tt)
                      (retry_with_backoff network_errors)
                      (constant_draws (1 # 4)) true 0%nat))
     <= Z.to_nat (max_retries (retry_with_backoff (E:=exn) network_errors)) + 1)%nat /\
  attempts (trace (decorator (scripted [ConnectionError; TimeoutError] tt)
                      (retry_with_backoff network_errors)
                      (constant_draws (1 # 4)) true 0%nat))
    = S (List.length (delays (trace
           (decorator (scripted [ConnectionError; TimeoutError] tt)
                      (retry_with_backoff network_errors)
                      (constant_draws (1 # 4)) true 0%nat)))) /\
  world (decorator (scripted [ConnectionError; TimeoutError] tt)
                   (retry_with_backoff network_errors)
                   (constant_draws (1 # 4)) true 0%nat)
    = world_before (scripted [ConnectionError; TimeoutError] tt)
        (attempts (trace (decorator (scripted [ConnectionError; TimeoutError] tt)
                            (retry_with_backoff network_errors)
                            (constant_draws (1 # 4)) true 0%nat))) 0%nat.
Proof.
  apply (@attempts_and_delays_accounting nat unit exn
           (scripted [ConnectionError; TimeoutError] tt)
           (retry_with_backoff network_errors)
           (constant_draws (1 # 4)) true 0%nat).
  - unfold well_formed; simpl. repeat split; try lia; lra.
  - intros k. unfold constant_draws. split; lra.
Defined.

(** The unjittered delay of a well-formed policy lies between
    [initial_delay] and [max_delay]. *)
Lemma backoff_bounds {E : Type} (p : BackoffPolicy E) (attempt : Z) :
  well_formed p -> 0 <= attempt ->
  (initial_delay p <= backoff p attempt)%Q /\
  (backoff p attempt <= max_delay p)%Q.
Proof.
  intros (_ & Hi & Hm & Hb) Ha. unfold backoff. split.
  - apply Q.min_glb; [|exact Hm].
    assert (H1 : (1 <= exponential_base p ^ attempt)%Q)
      by (apply Qpower_1_le; [lra|exact Ha]).
    rewrite <- (Qmult_1_r (initial_delay p)) at 1.
    apply Qmult_le_l; assumption.
  - apply Q.le_min_r.
Qed.



(** With jitter a delay can indeed exceed [max_delay]. *)
Example jittered_delay_above_max_delay :
  delays (trace (async_wrapper (scripted [ConnectionError] tt)
                   {| max_retries := 1; initial_delay := 2; max_delay := 2;
                      exponential_base := 2; jitter := true;
                      exceptions := network_errors |}
                   (constant_draws (3 # 4)) 0%nat))
    = [(2 * ((1 # 2) + (3 # 4)))%Q] /\
  (2 < 2 * ((1 # 2) + (3 # 4)))%Q.
Proof. split; [reflexivity|lra]. Qed.



End RetryMore.

(** * Further properties of the two managers *)

Module MemoryMore.

Import Retry.

(** X5.  [disconnect()] of either manager: on a disconnected manager it
    does nothing at all; on a connected one it logs and closes the pool
    (client); when the close returns the handle is unset, and when the
    close raises the exception reaches the caller and the handle stays
    set. *)
Theorem disconnect_behaviour (m : manager) (self : ref) (w : World) :
  match handle m w self with
  | None => disconnect_of m self w = (Returned tt, w)
  | Some h =>
    history (snd (disconnect_of m self w))
      = history w ++
        [Log Info (disconnecting m);
         Call (close_call m h) (returned (env w (tick w) (close_call m h)))] /\
    match env w (tick w) (close_call m h) with
    | Returned _ =>
        fst (disconnect_of m self w) = Returned tt /\
        handle m (snd (disconnect_of m self w)) self = None
    | Raised e =>
        fst (disconnect_of m self w) = Raised e /\
        handle m (snd (disconnect_of m self w)) self = Some h
    end
  end.
Proof.
  destruct m; simpl;
    unfold Database.disconnect, Cache.disconnect; run_code; simpl.
  - destruct (pool (databases w self)) as [h|] eqn:Hh; [|reflexivity].
    simpl. destruct (env w (tick w) (PoolClose h)) as [[]|e]; simpl;
      rewrite ?Nat.eqb_refl, <- ?app_assoc; auto.
  - destruct (client (caches w self)) as [h|] eqn:Hh; [|reflexivity].
    simpl. destruct (env w (tick w) (RedisClose h)) as [[]|e]; simpl;
      rewrite ?Nat.eqb_refl, <- ?app_assoc; auto.
Qed.

(** X6.  [Database.execute]: on a disconnected manager it raises
    [RuntimeError("Database not connected")] without calling the backend;
    on a connected one it borrows a connection, runs the statement and
    releases the connection whether the statement returned or raised; a
    failure of the statement is not swallowed. *)
Theorem execute_behaviour (self : ref) (query : string) (w : World) :
  match pool (databases w self) with
  | None =>
      Database.execute self query w
        = (Raised (RuntimeError "Database not connected"), w)
  | Some q =>
    match env w (tick w) (PoolAcquire q) with
    | Raised e =>
        fst (Database.execute self query w) = Raised e /\
        history (snd (Database.execute self query w))
          = history w ++ [Call (PoolAcquire q) false]
    | Returned c =>
        history (snd (Database.execute self query w))
          = history w ++
            [Call (PoolAcquire q) true;
             Call (ConnExecute c query)
                  (returned (env w (S (tick w)) (ConnExecute c query)));
             Call (PoolRelease q c)
                  (returned (env w (S (S (tick w))) (PoolRelease q c)))] /\
        fst (Database.execute self query w)
          = match env w (S (S (tick w))) (PoolRelease q c) with
            | Raised e => Raised e
            | Returned _ => env w (S (tick w)) (ConnExecute c query)
            end
    end
  end.
Proof.
  unfold Database.execute; run_code; simpl.
  destruct (pool (databases w self)) as [q|]; [|reflexivity]. simpl.
  destruct (env w (tick w) (PoolAcquire q)) as [c|e]; simpl; [|auto].
  destruct (env w (S (tick w)) (ConnExecute c query)) as [s|e]; simpl;
    destruct (env w (S (S (tick w))) (PoolRelease q c)) as [[]|e'];
    simpl; rewrite <- ?app_assoc; auto.
Qed.

(** X7.  When [trans.start()] raises, the block is not run and
    [__aexit__] is not called: the exception reaches the caller and the
    connection that [transaction()] borrowed is not released. *)
Theorem failed_start_leaves_connection_borrowed
    (A : Type) (self : ref) (block : Connection -> M A)
    (w0 w : World) (ctx : Database.TransactionContext) (e : exn) :
  Database.transaction self w0 = (Returned ctx, w) ->
  env w (tick w) (TransStart (Database.trans ctx)) = Raised e ->
  fst (Database.async_with ctx block w) = Raised e /\
  history (snd (Database.async_with ctx block w))
    = history w0 ++
      [Call (PoolAcquire (Database.tpool ctx)) true;
       Call (TransStart (Database.trans ctx)) false].
Proof.
  intros Htrans Hstart.
  assert (Hw : history w
               = history w0 ++ [Call (PoolAcquire (Database.tpool ctx)) true]).
  { revert Htrans. run_code. simpl.
    destruct (pool (databases w0 self)) as [q|];
      [|simpl; intros Heq; inversion Heq].
    destruct (env w0 (tick w0) (PoolAcquire q)) as [k|e0];
      simpl; intros Heq; inversion Heq; subst; reflexivity. }
  unfold Database.async_with. run_code. simpl. rewrite Hstart. simpl.
  rewrite Hw, <- app_assoc. auto.
Qed.

Lemma failed_start_leaves_connection_borrowed_witness :
  fst (Database.async_with
         {| Database.conn := 7%nat; Database.trans := 7%nat;
            Database.tpool := 1%nat |}
         (fun c => call (ConnExecute c "DELETE FROM users"))
         (snd (Database.transaction 0%nat
                 (connected_world
                    (fun _ c =>
                       match c as c' return outcome (reply c') exn with
                       | TransStart _ => Raised PostgresConnectionError
                       | c' => Returned (plain_reply c')
                       end)))))
    = Raised PostgresConnectionError /\
  history (snd (Database.async_with
         {| Database.conn := 7%nat; Database.trans := 7%nat;
            Database.tpool := 1%nat |}
         (fun c => call (ConnExecute c "DELETE FROM users"))
         (snd (Database.transaction 0%nat
                 (connected_world
                    (fun _ c =>
                       match c as c' return outcome (reply c') exn with
                       | TransStart _ => Raised PostgresConnectionError
                       | c' => Returned (plain_reply c')
                       end))))))
    = [Call (PoolAcquire 1%nat) true; Call (TransStart 7%nat) false].
Proof.
  apply (@failed_start_leaves_connection_borrowed string 0%nat
           (fun c => call (ConnExecute c "DELETE FROM users"))
           (connected_world
              (fun _ c =>
                 match c as c' return outcome (reply c') exn with
                 | TransStart _ => Raised PostgresConnectionError
                 | c' => Returned (plain_reply c')
                 end))
           _ {| Database.conn := 7%nat; Database.trans := 7%nat;
                Database.tpool := 1%nat |} PostgresConnectionError).
  - reflexivity.
  - reflexivity.
Defined.

(** X8.  On a disconnected manager every cache operation raises
    [RuntimeError("Cache not connected")] and leaves the world untouched,
    with one exception: [set_json] serializes first, so with a value that
    [json.dumps] rejects it logs the error and returns [False]. *)
Theorem cache_operations_when_disconnected
    (Json : Type) (json_loads : string -> outcome Json exn)
    (json_dumps : Json -> outcome string exn)
    (op : operation Json) (self : ref) (w : World) :
  client (caches w self) = None ->
  match op with
  | SetJson _ value _ =>
    match json_dumps value with
    | Returned _ =>
        perform json_loads json_dumps op self w
          = (Raised (RuntimeError "Cache not connected"), w)
    | Raised e =>
        if is_TypeError_or_ValueError e
        then perform json_loads json_dumps op self w
             = (Returned (OfBool Json false),
                record (Log Error "Failed to serialize JSON") w)
        else perform json_loads json_dumps op self w = (Raised e, w)
    end
  | _ =>
      perform json_loads json_dumps op self w
        = (Raised (RuntimeError "Cache not connected"), w)
  end.
Proof.
  intros Hc.
  destruct op; simpl;
    unfold Cache.get_json, Cache.set_json, Cache.get, Cache.set, Cache.delete,
           Cache.exists_, Cache.increment, Cache.expire, Cache.keys,
           Cache.flush;
    run_code; simpl; rewrite ?Hc; simpl; try reflexivity.
  destruct (json_dumps value0) as [s|e]; simpl; rewrite ?Hc; simpl;
    [reflexivity|].
  destruct (is_TypeError_or_ValueError e); reflexivity.
Qed.

Lemma cache_operations_when_disconnected_witness :
  perform toy_loads toy_dumps (SetJson "k" ""%string None) 0%nat (start healthy)
    = (Returned (OfBool string false),
       record (Log Error "Failed to serialize JSON") (start healthy)).
Proof.
  apply (@cache_operations_when_disconnected string toy_loads toy_dumps
           (SetJson "k" ""%string None) 0%nat (start healthy) eq_refl).
Defined.

(** X9.  No cache operation, on a connected manager or not, and whatever
    redis or [json] do, changes the managers' handles, the registry or the
    environment; each issues at most one redis command and only appends to
    the history. *)
Theorem cache_operations_keep_state
    (Json : Type) (json_loads : string -> outcome Json exn)
    (json_dumps : Json -> outcome string exn)
    (op : operation Json) (self : ref) (w : World) :
  same_state w (snd (perform json_loads json_dumps op self w)) /\
  (tick (snd (perform json_loads json_dumps op self w)) <= S (tick w))%nat /\
  exists h,
    history (snd (perform json_loads json_dumps op self w)) = history w ++ h.
Proof.
  unfold same_state.
  destruct op; simpl;
    unfold Cache.get_json, Cache.set_json, Cache.get, Cache.set, Cache.delete,
           Cache.exists_, Cache.increment, Cache.expire, Cache.keys,
           Cache.flush;
    run_code; split_cases;
    (repeat split; try reflexivity; try (simpl; lia));
    first [ exists []; rewrite app_nil_r; reflexivity
          | simpl; rewrite <- ?app_assoc; eexists; reflexivity ].
Qed.

(** X10.  [set_json] hands redis the [json.dumps] of the value, under
    the key and with [SETEX] exactly for a [ttl] other than [None] and
    [0]; and when redis answers [GET] with a string that [json.loads]
    maps back to the value, [get_json] returns the value. *)
Theorem json_round_trip
    (Json : Type) (json_loads : string -> outcome Json exn)
    (json_dumps : Json -> outcome string exn)
    (self : ref) (key : string) (j : Json) (ttl : option Z) (s : string)
    (c : Redis) (w w2 : World) :
  json_dumps j = Returned s -> json_loads s = Returned j ->
  client (caches w self) = Some c ->
  client (caches w2 self) = Some c ->
  env w2 (tick w2) (RedisGet c key) = Returned (Some s) ->
  (exists rest,
     history (snd (Cache.set_json json_dumps self key j ttl w))
       = history w ++
         Call (store_call c key s ttl)
              (returned (env w (tick w) (store_call c key s ttl))) :: rest) /\
  fst (Cache.get_json json_loads self key w2) = Returned (Some j).
Proof.
  intros Hd Hl Hc Hc2 Hget. split.
  - unfold Cache.set_json, Cache.set; run_code; simpl.
    rewrite Hd. simpl. rewrite Hc. simpl.
    destruct ttl as [t|]; simpl; [destruct (t =? 0)|];
      match goal with
      | |- context [env w (tick w) ?cmd] => destruct (env w (tick w) cmd)
      end; split_cases; simpl; rewrite <- ?app_assoc; eexists; reflexivity.
  - unfold Cache.get_json, Cache.get; run_code; simpl.
    rewrite Hc2. simpl. rewrite Hget. simpl. rewrite Hl. reflexivity.
Qed.

Lemma json_round_trip_witness :
  (exists rest,
     history (snd (Cache.set_json toy_dumps 0%nat "test:json" "doc"%string (Some 60)
                     (connected_world healthy)))
       = history (connected_world healthy) ++
         Call (store_call 2%nat "test:json" "doc"%string (Some 60))
              (returned (env (connected_world healthy)
                             (tick (connected_world healthy))
                             (store_call 2%nat "test:json" "doc"%string (Some 60))))
         :: rest) /\
  fst (Cache.get_json toy_loads 0%nat "test:json"
         (connected_world
            (fun _ c =>
               match c as c' return outcome (reply c') exn with
               | RedisGet _ _ => Returned (Some "doc"%string)
               | c' => Returned (plain_reply c')
               end)))
    = Returned (Some "doc"%string).
Proof.
  apply (@json_round_trip string toy_loads toy_dumps 0%nat "test:json" "doc"%string
           (Some 60) "doc"%string 2%nat (connected_world healthy)
           (connected_world
              (fun _ c =>
                 match c as c' return outcome (reply c') exn with
                 | RedisGet _ _ => Returned (Some "doc"%string)
                 | c' => Returned (plain_reply c')
                 end)));
    reflexivity.
Defined.

(** X11.  [get_database] and [get_cache] return the one instance of the
    registry: an instance already in the slot is returned and nothing
    changes; on an empty slot a new, disconnected instance is allocated
    and stored; either way a second call returns the same instance and
    changes nothing. *)
Theorem get_returns_the_singleton (m : manager) (w : World) :
  exists db,
    fst (get_of m w) = Returned db /\
    slot m (snd (get_of m w)) = Some db /\
    get_of m (snd (get_of m w)) = (Returned db, snd (get_of m w)) /\
    match slot m w with
    | Some db' => db = db' /\ snd (get_of m w) = w
    | None =>
        db = next_ref m w /\
        handle m (snd (get_of m w)) db = None /\
        next_ref m (snd (get_of m w)) = S db
    end.
Proof.
  destruct m; simpl; unfold Database.get_database, Cache.get_cache.
  - destruct (_db w) as [db|] eqn:Hs.
    + exists db. simpl. rewrite ?Hs. repeat split; reflexivity.
    + exists (databases_next w). simpl. rewrite Nat.eqb_refl.
      repeat split; reflexivity.
  - destruct (_cache w) as [db|] eqn:Hs.
    + exists db. simpl. rewrite ?Hs. repeat split; reflexivity.
    + exists (caches_next w). simpl. rewrite Nat.eqb_refl.
      repeat split; reflexivity.
Qed.

(** X12.  [close_database] and [close_cache]: on an empty slot they do
    nothing; otherwise they disconnect the stored instance and, when that
    returns, clear the slot, so that the next [get_...] allocates a new
    instance; when the disconnect raises, the exception reaches the caller
    and the instance stays in the slot. *)
Theorem close_behaviour (m : manager) (w : World) :
  match slot m w with
  | None => close_of m w = (Returned tt, w)
  | Some db =>
    match fst (disconnect_of m db w) with
    | Returned _ =>
        fst (close_of m w) = Returned tt /\
        slot m (snd (close_of m w)) = None /\
        handle m (snd (close_of m w)) db = None /\
        fst (get_of m (snd (close_of m w))) = Returned (next_ref m w)
    | Raised e =>
        close_of m w = (Raised e, snd (disconnect_of m db w)) /\
        slot m (snd (close_of m w)) = Some db
    end
  end.
Proof.
  destruct m; simpl;
    unfold Database.close_database, Cache.close_cache,
           Database.get_database, Cache.get_cache.
  - destruct (_db w) as [db|] eqn:Hs; [|reflexivity].
    unfold Database.disconnect, Database.set_db; run_code; simpl.
    destruct (pool (databases w db)) as [h|] eqn:Hh; simpl.
    + destruct (env w (tick w) (PoolClose h)) as [[]|e]; simpl;
        rewrite ?Nat.eqb_refl; auto.
    + rewrite Hh. auto.
  - destruct (_cache w) as [db|] eqn:Hs; [|reflexivity].
    unfold Cache.disconnect, Cache.set_cache; run_code; simpl.
    destruct (client (caches w db)) as [h|] eqn:Hh; simpl.
    + destruct (env w (tick w) (RedisClose h)) as [[]|e]; simpl;
        rewrite ?Nat.eqb_refl; auto.
    + rewrite Hh. auto.
Qed.

(** X18.  One call of [connect()], on either manager and whatever the
    backend does over its attempts: when it returns the manager holds a
    handle; it constructs at most one pool (client), and none when the
    manager was connected; it never touches the registry. *)
Theorem connect_postcondition
    (m m' : manager) (rnd : nat -> Q) (self : ref) (w : World) :
  (result (connect_of m rnd self w) = Returned tt ->
   handle m (world (connect_of m rnd self w)) self <> None) /\
  (exists h,
     history (world (connect_of m rnd self w)) = history w ++ h /\
     (constructed m h <= 1)%nat /\
     (handle m w self <> None -> constructed m h = 0%nat)) /\
  slot m' (world (connect_of m rnd self w)) = slot m' w.
Proof.
  split; [|split; [|apply MemoryFacts.connect_keeps_slot]];
    rewrite MemoryFacts.connect_of_unfold;
    destruct (MemoryFacts.connect_loop m self rnd [0; 1; 2; 3] None 0%nat w)
      as (h & Hh & Hcase).
  - intros Hres.
    destruct (handle m w self) as [q|].
    + destruct Hcase as (_ & Hq & _). rewrite Hq. discriminate.
    + destruct Hcase as (_ & Hret).
      destruct (Hret Hres) as (_ & q & Hq). rewrite Hq. discriminate.
  - exists h. split; [exact Hh|].
    destruct (handle m w self) as [q|].
    + destruct Hcase as (Hz & _). rewrite Hz. split; [lia|reflexivity].
    + destruct Hcase as (Hle & _). split; [exact Hle|]. congruence.
Qed.

Lemma connect_postcondition_witness :
  handle Relational
         (world (connect_of Relational (constant_draws 0) 0%nat (start healthy)))
         0%nat <> None.
Proof.
  apply (proj1 (connect_postcondition Relational Relational (constant_draws 0)
                  0%nat (start healthy))).
  reflexivity.
Defined.

End MemoryMore.

(** * Properties of the connectivity test *)

Module ConnectivityFacts.

Import Retry.

Section Steps.

Variable P : World -> Prop.

Lemma returns_in_bind {A B : Type} (m : M A) (k : A -> M B) :
  returns_in P m -> (forall v, returns_in P (k v)) -> returns_in P (bind m k).
Proof.
  intros Hm Hk w Hw. destruct (Hm w Hw) as (v & w' & Heq & Hw').
  unfold bind. rewrite Heq. apply Hk. exact Hw'.
Qed.

Lemma returns_true_bind {A : Type} (m : M A) (k : A -> M bool) :
  returns_in P m -> (forall v, returns_true P (k v)) -> returns_true P (bind m k).
Proof.
  intros Hm Hk w Hw. destruct (Hm w Hw) as (v & w' & Heq & Hw').
  unfold bind. rewrite Heq. apply Hk. exact Hw'.
Qed.

Lemma returns_true_ret : returns_true P (ret true).
Proof. intros w Hw. exists w. split; [reflexivity|exact Hw]. Qed.

End Steps.

Section Ready.

Variable Json : Type.
Variable json_loads : string -> outcome Json exn.
Variable json_dumps : Json -> outcome string exn.
Variable e0 : environment.
Variable self : ref.

Hypothesis backend : raises_Exceptions e0.
Hypothesis loads_fails :
  forall s e, json_loads s = Raised e -> is_JSONDecodeError e = true.
Hypothesis dumps_fails :
  forall j e, json_dumps j = Raised e -> is_TypeError_or_ValueError e = true.

(** An operation of a ready cache, run step by step. *)
Ltac run_operation :=
  let w := fresh "w" in
  let c := fresh "c" in
  let Hc := fresh "Hc" in
  let Hs := fresh "Hs" in
  let He := fresh "He" in
  intros w ((c & Hc) & Hs & He);
  unfold Cache.get_json, Cache.set_json, Cache.get, Cache.set, Cache.delete,
         Cache.exists_, Cache.increment, Connectivity.when;
  run_code; simpl; rewrite ?Hc; simpl;
  repeat (simpl;
          match goal with
          | |- context [json_dumps ?j] =>
              let H := fresh "H" in
              destruct (json_dumps j) eqn:H;
              [|simpl; rewrite (@dumps_fails _ _ H)]
          | |- context [json_loads ?s] =>
              let H := fresh "H" in
              destruct (json_loads s) eqn:H;
              [|simpl; rewrite (@loads_fails _ _ H)]
          | |- context [client (caches _ self)] => rewrite Hc
          | |- context [env _ ?t ?cmd] =>
              let H := fresh "H" in
              rewrite He;
              destruct (e0 t cmd) eqn:H;
              [|simpl; rewrite (@backend _ _ _ H)]
          | |- context [if ?b then _ else _] => destruct b
          | |- context [match ?x with Some _ => _ | None => _ end] =>
              destruct x
          end);
  simpl; eexists; eexists; (split; [reflexivity|]);
  (split; [exists c; exact Hc|split; [exact Hs|exact He]]).

Lemma log_returns (lvl : level) (msg : string) :
  returns_in (cache_ready e0 self) (log lvl msg).
Proof. run_operation. Qed.

Lemma when_returns (b : bool) (lvl : level) (msg : string) :
  returns_in (cache_ready e0 self) (Connectivity.when b (log lvl msg)).
Proof. run_operation. Qed.

Lemma if_returns (b : bool) (lvl lvl' : level) (msg msg' : string) :
  returns_in (cache_ready e0 self) (if b then log lvl msg else log lvl' msg').
Proof. run_operation. Qed.

Lemma set_returns (key value : string) (ttl : option Z) :
  returns_in (cache_ready e0 self) (Cache.set self key value ttl).
Proof. run_operation. Qed.

Lemma get_returns (key : string) :
  returns_in (cache_ready e0 self) (Cache.get self key).
Proof. run_operation. Qed.

Lemma exists_returns (key : string) :
  returns_in (cache_ready e0 self) (Cache.exists_ self key).
Proof. run_operation. Qed.

Lemma delete_returns (key : string) :
  returns_in (cache_ready e0 self) (Cache.delete self key).
Proof. run_operation. Qed.

Lemma increment_returns (key : string) (amount : Z) :
  returns_in (cache_ready e0 self) (Cache.increment self key amount).
Proof. run_operation. Qed.

Lemma set_json_returns (key : string) (value : Json) (ttl : option Z) :
  returns_in (cache_ready e0 self) (Cache.set_json json_dumps self key value ttl).
Proof. run_operation. Qed.

Lemma get_json_returns (key : string) :
  returns_in (cache_ready e0 self) (Cache.get_json json_loads self key).
Proof. run_operation. Qed.

End Ready.

(** [Cache.connect_body] leaves the environment alone, and raises only
    what the environment raised. *)
Lemma cache_body_env (self : ref) (w : World) :
  env (snd (Cache.connect_body self w)) = env w /\
  (raises_Exceptions (env w) ->
   forall e, fst (Cache.connect_body self w) = Raised e ->
             is_Exception e = true).
Proof.
  run_code.
  destruct (client (caches w self)); simpl;
    [split; [reflexivity|intros _ e H; discriminate H]|].
  destruct (env w (tick w) RedisFromUrl) as [q|e1] eqn:H1; simpl;
    [destruct (env w (S (tick w)) (RedisPing q)) as [b|e2] eqn:H2; simpl;
     [destruct (env w (S (S (tick w))) (RedisInfo q)) as [v|e3] eqn:H3;
      simpl|]|];
    (split;
     [branches; reflexivity
     |intros Hb e He;
      repeat match goal with
             | H : env w _ _ = Raised ?x |- _ =>
                 let Hx := fresh "Hx" in
                 pose proof (Hb _ _ _ H) as Hx; rewrite Hx in He; clear H
             end;
      simpl in He; inversion He; subst; assumption]).
Qed.

(** The loop of [Cache.connect] raises instances of [Exception] only. *)
Lemma cache_connect_loop_raises (self : ref) (rnd : nat -> Q) :
  forall todo last drawn w x,
    raises_Exceptions (env w) ->
    (forall e, last = Some e -> is_Exception e = true) ->
    result (async_loop (Cache.connect_body self) (retry_on_network_error 3 1)
                       rnd todo last drawn w) = Raised x ->
    is_Exception (exn_of_raised x) = true.
Proof.
  induction todo as [|attempt rest IH]; intros last drawn w x Hb Hlast; simpl.
  - destruct last as [e|]; simpl; intros H; inversion H; subst; simpl; auto.
  - destruct (cache_body_env self w) as [Henv Hraise].
    destruct (Cache.connect_body self w) as [[[]|e] w'] eqn:Hf; simpl in *;
      [intros H; discriminate H|].
    pose proof (Hraise Hb e eq_refl) as He.
    destruct (network_errors e);
      [|intros H; inversion H; subst; exact He].
    destruct (attempt >=? 3); [intros H; inversion H; reflexivity|].
    simpl. apply IH.
    + rewrite Henv. exact Hb.
    + intros e' H'. inversion H'; subst. exact He.
Qed.

Lemma cache_connect_keeps_env (rnd : nat -> Q) (self : ref) (w : World) :
  env (world (Cache.connect rnd self w)) = env w.
Proof.
  apply (MemoryFacts.async_loop_preserves (Cache.connect_body self)
           (retry_on_network_error 3 1) rnd (fun w' => env w' = env w));
    [|reflexivity].
  intros w0 H0. rewrite (proj1 (cache_body_env self w0)). exact H0.
Qed.

(** What [init_cache] leaves behind: a ready cache when it returns; when
    it raises, an instance of [Exception] and a stored instance. *)
Lemma init_cache_outcome (rnd : nat -> Q) (w : World) :
  raises_Exceptions (env w) ->
  match Cache.init_cache rnd w with
  | (Returned cache, w1) => cache_ready (env w) cache w1
  | (Raised e, w1) =>
      is_Exception e = true /\ env w1 = env w /\
      exists cache, _cache w1 = Some cache
  end.
Proof.
  intros Hb.
  assert (Hget : exists cache wg,
             Cache.get_cache w = (Returned cache, wg) /\
             _cache wg = Some cache /\ env wg = env w).
  { unfold Cache.get_cache. destruct (_cache w) as [cache|] eqn:Hs.
    - exists cache, w. auto.
    - eexists; eexists. split; [reflexivity|]. split; reflexivity. }
  destruct Hget as (cache & wg & Hget & Hslot & Henv).
  unfold Cache.init_cache, bind. rewrite Hget. unfold await.
  pose proof (MemoryFacts.connect_keeps_slot KeyValue KeyValue rnd cache wg)
    as Hkeep.
  pose proof (cache_connect_keeps_env rnd cache wg) as Hkenv.
  pose proof (MemoryFacts.connect_loop KeyValue cache rnd
                [0; 1; 2; 3] None 0%nat wg) as Hloop.
  pose proof (@cache_connect_loop_raises cache rnd [0; 1; 2; 3] None 0%nat wg)
    as Hraise.
  cbn [slot connect_of] in Hkeep.
  cbn zeta in Hloop. cbn [handle connect_body_of] in Hloop.
  change (async_loop (Cache.connect_body cache) (retry_on_network_error 3 1)
            rnd [0; 1; 2; 3] None 0%nat wg)
    with (Cache.connect rnd cache wg) in *.
  destruct (result (Cache.connect rnd cache wg)) as [[]|x] eqn:Hres; simpl.
  - unfold cache_ready. rewrite Hkeep, Hkenv, Hslot, Henv.
    split; [|auto].
    destruct Hloop as (h & _ & Hcase).
    destruct (client (caches wg cache)) as [q|].
    + exists q. apply Hcase.
    + destruct Hcase as (_ & Hret). destruct (Hret eq_refl) as (_ & q & Hq).
      exists q. exact Hq.
  - rewrite Hkenv, Hkeep, Hslot, Henv. split; [|eauto].
    apply (Hraise x); [rewrite Henv; exact Hb|intros e H; discriminate H|
                        reflexivity].
Qed.

Lemma close_cache_returns (cache : ref) (w : World) :
  _cache w = Some cache ->
  (forall t c, env w t (RedisClose c) = Returned tt) ->
  fst (Cache.close_cache w) = Returned tt.
Proof.
  intros Hs Hclose. unfold Cache.close_cache, Cache.disconnect. rewrite Hs.
  run_code. simpl.
  destruct (client (caches w cache)) as [q|]; simpl; [|reflexivity].
  rewrite Hclose. reflexivity.
Qed.

(** The shape of [test_redis]: [init_cache], then steps that cannot
    fail, under a handler for [Exception] and a final [close_cache]. *)
Lemma verdict_of_shape (rnd : nat -> Q) (k : ref -> M bool) (msg : string)
    (w : World) :
  raises_Exceptions (env w) ->
  (forall t c, env w t (RedisClose c) = Returned tt) ->
  (forall cache, returns_true (cache_ready (env w) cache) (k cache)) ->
  fst (try_finally
         (try_except (cache <- Cache.init_cache rnd ;; k cache) is_Exception
                     (fun e => log Error msg ;;; ret false))
         Cache.close_cache w)
    = Returned (returned (fst (Cache.init_cache rnd w))).
Proof.
  intros Hb Hclose Hk.
  pose proof (init_cache_outcome rnd w Hb) as Hinit.
  unfold try_finally, try_except, bind at 1.
  destruct (Cache.init_cache rnd w) as [[cache|e] w1]; simpl.
  - destruct (Hk cache w1 Hinit) as (w2 & Heq & (_ & Hs & He)).
    rewrite Heq.
    pose proof (@close_cache_returns cache w2 Hs) as Hc.
    rewrite He in Hc. specialize (Hc Hclose).
    destruct (Cache.close_cache w2) as [[[]|e] w3]; simpl in *;
      [reflexivity|discriminate Hc].
  - destruct Hinit as (He & Henv & cache & Hs). rewrite He.
    unfold bind, log, ret.
    pose proof (@close_cache_returns cache
                  (record (Log Error msg) w1) Hs) as Hc.
    simpl in Hc. rewrite Henv in Hc. specialize (Hc Hclose).
    destruct (Cache.close_cache (record (Log Error msg) w1))
      as [[[]|e'] w3]; simpl in *; [reflexivity|discriminate Hc].
Qed.



(** With Redis unreachable the test passes: [connect()] returns on its
    second attempt, and every failed operation is swallowed. *)
Example test_redis_passes_with_redis_unreachable :
  fst (Connectivity.test_redis toy_loads toy_dumps toy_eq "doc"%string
         (constant_draws 0) (start (redis_unreachable RedisConnectionError)))
    = Returned true.
Proof. vm_compute. reflexivity. Qed.

End ConnectivityFacts.

(** * Properties of the helper functions *)

Module HelpersFacts.

Import Helpers.

(** X14.  [truncate_text] with a suffix that fits into [max_length]:
    a text within the limit is returned unchanged; a longer one becomes
    its first [max_length - len(suffix)] code points followed by the
    suffix, exactly [max_length] long. *)
Theorem truncate_text_length
    (char : Type) (text suffix : list char) (max_length : Z) :
  Z.of_nat (List.length suffix) <= max_length ->
  Z.of_nat (List.length (truncate_text text max_length suffix)) <= max_length /\
  (Z.of_nat (List.length text) <= max_length ->
   truncate_text text max_length suffix = text) /\
  (max_length < Z.of_nat (List.length text) ->
   truncate_text text max_length suffix
     = firstn (Z.to_nat (max_length - Z.of_nat (List.length suffix))) text
       ++ suffix /\
   Z.of_nat (List.length (truncate_text text max_length suffix)) = max_length).
Proof.
  intros Hs. unfold truncate_text, upto.
  destruct (Z.of_nat (List.length text) <=? max_length) eqn:Hle.
  - apply Z.leb_le in Hle. repeat split; try lia; reflexivity.
  - apply Z.leb_gt in Hle.
    replace (max_length - Z.of_nat (List.length suffix) <? 0) with false
      by (symmetry; apply Z.ltb_ge; lia).
    rewrite length_app, length_firstn.
    repeat split; try lia; reflexivity.
Qed.

Lemma truncate_text_length_witness :
  Z.of_nat (List.length (truncate_text [1; 2; 3; 4; 5; 6; 7; 8; 9; 10] 5
                           [0; 0; 0])) <= 5 /\
  (Z.of_nat (List.length [1; 2; 3; 4; 5; 6; 7; 8; 9; 10]) <= 5 ->
   truncate_text [1; 2; 3; 4; 5; 6; 7; 8; 9; 10] 5 [0; 0; 0]
     = [1; 2; 3; 4; 5; 6; 7; 8; 9; 10]) /\
  (5 < Z.of_nat (List.length [1; 2; 3; 4; 5; 6; 7; 8; 9; 10]) ->
   truncate_text [1; 2; 3; 4; 5; 6; 7; 8; 9; 10] 5 [0; 0; 0]
     = firstn (Z.to_nat (5 - Z.of_nat (List.length [0; 0; 0])))
              [1; 2; 3; 4; 5; 6; 7; 8; 9; 10] ++ [0; 0; 0] /\
   Z.of_nat (List.length (truncate_text [1; 2; 3; 4; 5; 6; 7; 8; 9; 10] 5
                            [0; 0; 0])) = 5).
Proof.
  apply (@truncate_text_length Z [1; 2; 3; 4; 5; 6; 7; 8; 9; 10] [0; 0; 0] 5).
  simpl. lia.
Defined.

(** With a suffix longer than [max_length] the slice bound is negative
    and counts from the end: the result is longer than the limit, and
    here longer than the text. *)
Example truncate_text_with_long_suffix :
  truncate_text [1; 2; 3; 4; 5; 6; 7; 8; 9; 10] 2 [0; 0; 0]
    = [1; 2; 3; 4; 5; 6; 7; 8; 9; 0; 0; 0].
Proof. reflexivity. Qed.

Lemma filter_filter {A : Type} (f : A -> bool) (l : list A) :
  filter f (filter f l) = filter f l.
Proof.
  induction l as [|a l IH]; [reflexivity|]. simpl.
  destruct (f a) eqn:Hf; simpl; rewrite ?Hf, IH; reflexivity.
Qed.

(** X15.  [format_phone_number] returns ["+"] followed by the digits of
    its argument, in order, and nothing else: a ["+"] of the argument is
    dropped like every other non-digit, the empty string gives ["+"], and
    formatting twice is formatting once. *)
Theorem format_phone_number_shape
    (char : Type) (isdigit : char -> bool) (plus : char)
    (char_eqb : char -> char -> bool) (phone : list char) :
  (forall a b, char_eqb a b = true -> a = b) ->
  isdigit plus = false ->
  format_phone_number isdigit plus char_eqb phone
    = plus :: filter isdigit phone /\
  format_phone_number isdigit plus char_eqb
      (format_phone_number isdigit plus char_eqb phone)
    = format_phone_number isdigit plus char_eqb phone.
Proof.
  intros Heq Hplus.
  assert (Hshape : forall p,
             format_phone_number isdigit plus char_eqb p
             = plus :: filter isdigit p).
  { intros p. unfold format_phone_number.
    destruct (filter isdigit p) as [|c digits] eqn:Hd; [reflexivity|].
    simpl. destruct (char_eqb c plus) eqn:Hc; [|reflexivity].
    apply Heq in Hc. subst c.
    assert (Hin : In plus (filter isdigit p)) by (rewrite Hd; left; reflexivity).
    apply filter_In in Hin. destruct Hin as [_ Hin]. congruence. }
  split; [apply Hshape|].
  rewrite !Hshape. simpl. rewrite Hplus, filter_filter. reflexivity.
Qed.

Lemma format_phone_number_shape_witness :
  format_phone_number ascii_isdigit (Ascii.ascii_of_nat 43) Ascii.eqb
      (list_ascii_of_string "+1 (234) 567-890")
    = Ascii.ascii_of_nat 43
      :: filter ascii_isdigit (list_ascii_of_string "+1 (234) 567-890") /\
  format_phone_number ascii_isdigit (Ascii.ascii_of_nat 43) Ascii.eqb
      (format_phone_number ascii_isdigit (Ascii.ascii_of_nat 43) Ascii.eqb
         (list_ascii_of_string "+1 (234) 567-890"))
    = format_phone_number ascii_isdigit (Ascii.ascii_of_nat 43) Ascii.eqb
        (list_ascii_of_string "+1 (234) 567-890").
Proof.
  apply (@format_phone_number_shape Ascii.ascii ascii_isdigit
           (Ascii.ascii_of_nat 43) Ascii.eqb
           (list_ascii_of_string "+1 (234) 567-890")).
  - intros a b H. apply Ascii.eqb_eq. exact H.
  - reflexivity.
Defined.

(** Cutting a list into [m] pieces of [s] elements, when [m * s] covers
    it, loses nothing. *)
Lemma pieces_concat {A : Type} (s : nat) :
  forall m (l : list A),
    (List.length l <= m * s)%nat ->
    List.concat (map (fun k => firstn s (skipn (k * s) l)) (seq 0 m)) = l.
Proof.
  induction m as [|m IH]; intros l Hl.
  - simpl in *. destruct l; [reflexivity|simpl in Hl; lia].
  - change (seq 0 (S m)) with (0%nat :: seq 1 m). cbn [map List.concat].
    rewrite <- seq_shift, map_map. simpl skipn.
    rewrite <- (firstn_skipn s l) at 2. f_equal.
    rewrite <- (IH (skipn s l)).
    + f_equal. apply map_ext. intros k.
      rewrite skipn_skipn. f_equal. f_equal. lia.
    + rewrite length_skipn. lia.
Qed.

(** The number of chunks: enough to cover the list, and no more. *)
Lemma chunk_count (n s : nat) :
  (0 < s)%nat ->
  let m := Z.to_nat ((Z.of_nat n + Z.of_nat s - 1) / Z.of_nat s) in
  (n <= m * s)%nat /\ (forall k, (k < m)%nat -> (k * s < n)%nat).
Proof.
  intros Hs m.
  assert (Hq : 0 <= (Z.of_nat n + Z.of_nat s - 1) / Z.of_nat s)
    by (apply Z.div_pos; lia).
  assert (Hm : Z.of_nat m = (Z.of_nat n + Z.of_nat s - 1) / Z.of_nat s)
    by (unfold m; rewrite Z2Nat.id; [reflexivity|exact Hq]).
  pose proof (Z.div_mod (Z.of_nat n + Z.of_nat s - 1) (Z.of_nat s)
                ltac:(lia)) as Hdm.
  pose proof (Z.mod_pos_bound (Z.of_nat n + Z.of_nat s - 1) (Z.of_nat s)
                ltac:(lia)) as Hr.
  rewrite <- Hm in Hdm.
  split.
  - apply Nat2Z.inj_le. rewrite Nat2Z.inj_mul. nia.
  - intros k Hk. apply Nat2Z.inj_lt. rewrite Nat2Z.inj_mul. nia.
Qed.

(** X16.  [chunk_list]: a zero [chunk_size] is a [ValueError]; a negative
    one silently gives no chunks at all; a positive one cuts the list into
    chunks whose concatenation is the list, none of them empty, each of
    at most [chunk_size] elements and all but the last of exactly
    [chunk_size]. *)
Theorem chunk_list_partitions
    (A : Type) (items : list A) (chunk_size : Z) :
  (chunk_size = 0 -> chunk_list items chunk_size = Raised ValueError) /\
  (chunk_size < 0 -> chunk_list items chunk_size = Returned []) /\
  (0 < chunk_size ->
   exists chunks,
     chunk_list items chunk_size = Returned chunks /\
     List.concat chunks = items /\
     Forall (fun c => (0 < List.length c)%nat /\
                      Z.of_nat (List.length c) <= chunk_size) chunks /\
     forall i, (S i < List.length chunks)%nat ->
               Z.of_nat (List.length (nth i chunks [])) = chunk_size).
Proof.
  unfold chunk_list, range_from_zero. repeat split.
  - intros H. subst. reflexivity.
  - intros H. replace (chunk_size =? 0) with false
      by (symmetry; apply Z.eqb_neq; lia).
    replace (chunk_size <? 0) with true by (symmetry; apply Z.ltb_lt; lia).
    reflexivity.
  - intros H.
    replace (chunk_size =? 0) with false by (symmetry; apply Z.eqb_neq; lia).
    replace (chunk_size <? 0) with false by (symmetry; apply Z.ltb_ge; lia).
    remember (Z.to_nat chunk_size) as s eqn:Hs.
    assert (Hcs : chunk_size = Z.of_nat s) by lia.
    assert (Hpos : (0 < s)%nat) by lia.
    subst chunk_size. clear Hs H.
    destruct (chunk_count (List.length items) Hpos) as [Hcover Hshort].
    remember (Z.to_nat ((Z.of_nat (List.length items) + Z.of_nat s - 1)
                        / Z.of_nat s)) as m eqn:Hm.
    assert (Hmap :
              map (fun i => slice i (i + Z.of_nat s) items)
                  (map (fun k => Z.of_nat k * Z.of_nat s) (seq 0 m))
              = map (fun k => firstn s (skipn (k * s) items)) (seq 0 m)).
    { rewrite map_map. apply map_ext. intros k. unfold slice.
      rewrite <- Nat2Z.inj_mul.
      replace (Z.of_nat (k * s) + Z.of_nat s - Z.of_nat (k * s))
        with (Z.of_nat s) by lia.
      rewrite !Nat2Z.id. reflexivity. }
    eexists. split; [reflexivity|]. rewrite Hmap.
    split; [apply pieces_concat; exact Hcover|]. split.
    + apply Forall_forall. intros c Hc.
      apply in_map_iff in Hc. destruct Hc as (k & Hk & Hin).
      apply in_seq in Hin. subst c.
      rewrite length_firstn, length_skipn.
      specialize (Hshort k ltac:(lia)). lia.
    + intros i Hi. rewrite length_map, length_seq in Hi.
      rewrite (nth_indep _ [] (firstn s (skipn (0 * s) items)))
        by (rewrite length_map, length_seq; lia).
      rewrite (map_nth (fun k => firstn s (skipn (k * s) items))).
      rewrite seq_nth by lia.
      rewrite length_firstn, length_skipn.
      specialize (Hshort (S i) Hi). simpl in *. lia.
Qed.

Lemma chunk_list_partitions_witness :
  exists chunks,
    chunk_list [1; 2; 3; 4; 5] 2 = Returned chunks /\
    List.concat chunks = [1; 2; 3; 4; 5] /\
    Forall (fun c => (0 < List.length c)%nat /\
                     Z.of_nat (List.length c) <= 2) chunks /\
    forall i, (S i < List.length chunks)%nat ->
              Z.of_nat (List.length (nth i chunks [])) = 2.
Proof.
  apply (proj2 (proj2 (@chunk_list_partitions Z [1; 2; 3; 4; 5] 2))).
  lia.
Defined.

Section DictFacts.

Variable V : Type.

Lemma getitem_setitem (k k' : string) (v : V) (d : dict V) :
  getitem k (setitem k' v d)
    = if String.eqb k' k then Some v else getitem k d.
Proof.
  induction d as [|[k0 v0] d IH]; simpl.
  - reflexivity.
  - destruct (String.eqb k0 k') eqn:H0; simpl.
    + apply String.eqb_eq in H0. subst k0.
      destruct (String.eqb k' k); reflexivity.
    + destruct (String.eqb k0 k) eqn:H1.
      * apply String.eqb_eq in H1. subst k0.
        rewrite String.eqb_sym, H0. reflexivity.
      * exact IH.
Qed.

Lemma getitem_absent (k : string) (d : dict V) :
  ~ In k (keys d) -> getitem k d = None.
Proof.
  induction d as [|[k0 v0] d IH]; simpl; intros Hn; [reflexivity|].
  destruct (String.eqb k0 k) eqn:H0.
  - apply String.eqb_eq in H0. tauto.
  - apply IH. tauto.
Qed.

Lemma keys_setitem (k : string) (v : V) (d : dict V) :
  keys (setitem k v d) = if in_dec string_dec k (keys d) then keys d
                         else keys d ++ [k].
Proof.
  induction d as [|[k0 v0] d IH]; simpl; [reflexivity|].
  destruct (String.eqb k0 k) eqn:H0; simpl.
  - apply String.eqb_eq in H0. subst k0.
    destruct (string_dec k k); [|congruence].
    reflexivity.
  - apply String.eqb_neq in H0. rewrite IH.
    destruct (string_dec k0 k); [congruence|].
    destruct (in_dec string_dec k (keys d)); reflexivity.
Qed.

Lemma setitem_NoDup (k : string) (v : V) (d : dict V) :
  NoDup (keys d) -> NoDup (keys (setitem k v d)).
Proof.
  intros Hd. rewrite keys_setitem.
  destruct (in_dec string_dec k (keys d)) as [Hin|Hout]; [exact Hd|].
  apply NoDup_app; [exact Hd|repeat constructor; intros []|].
  intros a Ha [Hb|[]]. congruence.
Qed.

Lemma update_NoDup (other d : dict V) :
  NoDup (keys d) -> NoDup (keys (update d other)).
Proof.
  unfold update. revert d.
  induction other as [|[k v] other IH]; intros d Hd; simpl; [exact Hd|].
  apply IH. apply setitem_NoDup. exact Hd.
Qed.

(** After [d.update(other)], a key of [other] has the value of [other],
    any other key keeps its value. *)
Lemma getitem_update (k : string) (other d : dict V) :
  NoDup (keys other) ->
  getitem k (update d other)
    = match getitem k other with
      | Some v => Some v
      | None => getitem k d
      end.
Proof.
  unfold update. revert d.
  induction other as [|[k0 v0] other IH]; intros d Hnd; simpl;
    [reflexivity|].
  inversion Hnd as [|? ? Hout Hrest]; subst.
  rewrite (IH _ Hrest), getitem_setitem.
  destruct (String.eqb k0 k) eqn:H0; [|reflexivity].
  apply String.eqb_eq in H0. subst k0.
  rewrite (getitem_absent k other Hout). reflexivity.
Qed.

Lemma getitem_merge_from (k : string) (dicts : list (dict V)) :
  Forall (fun d => NoDup (keys d)) dicts ->
  forall acc,
    getitem k (fold_left (@update V) dicts acc)
      = match last_defined (map (getitem k) dicts) with
        | Some v => Some v
        | None => getitem k acc
        end.
Proof.
  induction dicts as [|d dicts IH]; intros Hall acc; simpl; [reflexivity|].
  inversion Hall as [|? ? Hd Hrest]; subst.
  rewrite (IH Hrest), (getitem_update k d acc Hd).
  destruct (last_defined (map (getitem k) dicts)); [reflexivity|].
  destruct (getitem k d); reflexivity.
Qed.

Lemma merge_NoDup_from (dicts : list (dict V)) :
  forall acc, NoDup (keys acc) ->
              NoDup (keys (fold_left (@update V) dicts acc)).
Proof.
  induction dicts as [|d dicts IH]; intros acc Hacc; simpl; [exact Hacc|].
  apply IH. apply update_NoDup. exact Hacc.
Qed.

End DictFacts.

(** X17.  [merge_dicts]: looking a key up in the merged dictionary gives
    the value of the last argument that has the key, and nothing when none
    has it; the result has no key twice. *)
Theorem merge_dicts_last_wins
    (V : Type) (dicts : list (dict V)) (k : string) :
  Forall (fun d => NoDup (keys d)) dicts ->
  getitem k (merge_dicts dicts) = last_defined (map (getitem k) dicts) /\
  NoDup (keys (merge_dicts dicts)).
Proof.
  intros Hall. unfold merge_dicts. split.
  - rewrite (getitem_merge_from k Hall []). simpl.
    destruct (last_defined (map (getitem k) dicts)); reflexivity.
  - apply merge_NoDup_from. constructor.
Qed.

Lemma merge_dicts_last_wins_witness :
  getitem "a" (merge_dicts [[("a"%string, 1)]; [("b"%string, 2)];
                            [("a"%string, 3)]])
    = last_defined (map (getitem "a")
                        [[("a"%string, 1)]; [("b"%string, 2)];
                         [("a"%string, 3)]]) /\
  NoDup (keys (merge_dicts [[("a"%string, 1)]; [("b"%string, 2)];
                            [("a"%string, 3)]])).
Proof.
  apply (@merge_dicts_last_wins Z
           [[("a"%string, 1)]; [("b"%string, 2)]; [("a"%string, 3)]] "a").
  repeat constructor; simpl; tauto.
Defined.

End HelpersFacts.

(** * Properties of the structured formatter *)

Module LoggingFacts.

Import Logging.

Lemma append_assoc (a b c : string) :
  ((a ++ b) ++ c)%string = (a ++ (b ++ c))%string.
Proof.
  induction a as [|x a IH]; simpl; [reflexivity|]. rewrite IH. reflexivity.
Qed.

Lemma append_empty (a : string) : (a ++ "")%string = a.
Proof.
  induction a as [|x a IH]; simpl; [reflexivity|]. rewrite IH. reflexivity.
Qed.

(** X19.  [StructuredFormatter.format] writes the context into
    [record.msg] itself: each further formatter that formats the same
    record appends the context once more, so that the [n+1]-th formatter
    lays out the message followed by [n + 1] copies of the context.  A
    record without context is left as it is. *)
Theorem format_appends_context_each_time
    (super_format : LogRecord -> string) (record : LogRecord) (n : nat) :
  context (formatted super_format n record) = context record /\
  match context record with
  | [] => formatted super_format n record = record
  | _ :: _ =>
      msg (formatted super_format n record)
        = (msg record ++ times (suffix record) n)%string /\
      fst (format super_format (formatted super_format n record))
        = super_format
            {| msg := (msg record ++ times (suffix record) (S n))%string;
               context := context record |}
  end.
Proof.
  induction n as [|n [IHc IH]].
  - split; [reflexivity|].
    destruct record as [m [|kv c]]; [reflexivity|].
    simpl. rewrite append_empty. split; reflexivity.
  - cbn [formatted].
    destruct (context record) as [|kv c] eqn:Hc.
    + rewrite IH. unfold format. rewrite Hc. simpl. split; [exact Hc|reflexivity].
    + destruct IH as [IHm _].
      assert (Hs : suffix (formatted super_format n record) = suffix record)
        by (unfold suffix; rewrite IHc, Hc; reflexivity).
      unfold format at 1 2 4. rewrite IHc. cbn [snd fst context msg].
      rewrite Hs, IHm, append_assoc.
      split; [reflexivity|]. split; [reflexivity|].
      unfold format. cbn [context msg fst].
      unfold suffix at 3. cbn [context].
      rewrite append_assoc, <- Hc. fold (suffix record). reflexivity.
Qed.

End LoggingFacts.
